(** * The scraping pipeline of [src/scraper.ts]

    A shallow embedding of the script: the command line ([endpointsToScrape],
    [limit]), the page generator [scrape], the cluster task that collects the
    page batches and writes the artifact, and [scrapeInParallel] with its
    initial fetch test.

    The browser is a read-only description of what the site answers
    ([Site]); everything the script does to the outside world (console
    output, navigation, serializer calls, [yield], progress bar, files,
    queueing) is an [event] of a trace, and a computation is a trace together
    with either a value or the exception that ended it. *)

From Stdlib Require Import List String Ascii ZArith QArith Bool Arith Lia.
From Stdlib Require Import DecimalString Permutation.
Import ListNotations.

Local Open Scope string_scope.
Local Open Scope list_scope.
Local Open Scope nat_scope.

(** ** JavaScript strings and numbers *)

(** A string stands for a text through its UTF-8 encoding, one [ascii] for
    each byte; a text with an unpaired surrogate has none and is outside the
    model.

    What [String.prototype.trim] and [parseInt] skip is white space and line
    terminators: TAB, LF, VT, FF, CR, SPACE, U+00A0, U+1680, U+2000 to
    U+200A, U+2028, U+2029, U+202F, U+205F, U+3000 and U+FEFF. [is_ws] is
    for those of one byte, [is_ws2] and [is_ws3] for those of two and three. *)
Definition is_ws (c : ascii) : bool :=
  let n := nat_of_ascii c in
  ((9 <=? n) && (n <=? 13)) || (n =? 32).

Definition is_ws2 (c1 c2 : ascii) : bool :=
  (nat_of_ascii c1 =? 194) && (nat_of_ascii c2 =? 160).

Definition is_ws3 (c1 c2 c3 : ascii) : bool :=
  let n1 := nat_of_ascii c1 in
  let n2 := nat_of_ascii c2 in
  let n3 := nat_of_ascii c3 in
  ((n1 =? 225) && (n2 =? 154) && (n3 =? 128))
  || ((n1 =? 226) && (n2 =? 128)
      && (((128 <=? n3) && (n3 <=? 138)) || (n3 =? 168) || (n3 =? 169)
          || (n3 =? 175)))
  || ((n1 =? 226) && (n2 =? 129) && (n3 =? 159))
  || ((n1 =? 227) && (n2 =? 128) && (n3 =? 128))
  || ((n1 =? 239) && (n2 =? 187) && (n3 =? 191)).

(** [s.trimStart()] *)
Fixpoint trim_start (s : string) : string :=
  match s with
  | EmptyString => s
  | String c1 r1 =>
      if is_ws c1 then trim_start r1
      else
        match r1 with
        | EmptyString => s
        | String c2 r2 =>
            if is_ws2 c1 c2 then trim_start r2
            else
              match r2 with
              | EmptyString => s
              | String c3 r3 => if is_ws3 c1 c2 c3 then trim_start r3 else s
              end
        end
  end.

(** Every character of [s] is white space or a line terminator. *)
Fixpoint all_ws (s : string) : bool :=
  match s with
  | EmptyString => true
  | String c1 r1 =>
      if is_ws c1 then all_ws r1
      else
        match r1 with
        | EmptyString => false
        | String c2 r2 =>
            if is_ws2 c1 c2 then all_ws r2
            else
              match r2 with
              | EmptyString => false
              | String c3 r3 => if is_ws3 c1 c2 c3 then all_ws r3 else false
              end
        end
  end.

(** [s.trimEnd()]: the shortest prefix that leaves only white space. In an
    encoded text such a cut never falls inside a character, since white
    space starts with no continuation byte. *)
Fixpoint trim_end (s : string) : string :=
  match s with
  | EmptyString => EmptyString
  | String c r => if all_ws s then EmptyString else String c (trim_end r)
  end.

(** [s.trim()] *)
Definition trim (s : string) : string := trim_end (trim_start s).

(** [s.replaceAll('\n', ' ')] *)
Fixpoint replaceAll_newline (s : string) : string :=
  match s with
  | EmptyString => EmptyString
  | String c r =>
      String (if Ascii.eqb c "010"%char then " "%char else c) (replaceAll_newline r)
  end.

(** The numbers the script computes with: a JavaScript number that is
    [NaN], an infinity, or an integer among the double-precision values.
    [-0] is not told apart from [0]: the script only compares and prints
    its numbers, and both compare alike and print as [0]. *)
Inductive jsnum : Type :=
| JNaN
| JInfinity
| JNegInfinity
| JInt (z : Z).

Definition isNaN (n : jsnum) : bool :=
  match n with JNaN => true | _ => false end.

Definition string_of_Z (z : Z) : string := NilZero.string_of_int (Z.to_int z).
Definition string_of_nat (n : nat) : string := string_of_Z (Z.of_nat n).

(** The double nearest to a natural number, ties to the even significand;
    [Infinity] from 2^1024 on. *)
Definition round_double (z : Z) : jsnum :=
  if (z <? 2 ^ 53)%Z then JInt z
  else
    let e := (Z.log2 z - 52)%Z in
    let q := Z.shiftr z e in
    let r := (z - Z.shiftl q e)%Z in
    let half := Z.shiftl 1 (e - 1) in
    let q' := if ((half <? r) || ((half =? r) && Z.odd q))%Z then (q + 1)%Z
              else q in
    let v := Z.shiftl q' e in
    if (2 ^ 1024 <=? v)%Z then JInfinity else JInt v.

(** The double nearest to an integer. *)
Definition to_double (z : Z) : jsnum :=
  if (z <? 0)%Z then
    match round_double (- z) with
    | JInt v => JInt (- v)
    | JInfinity => JNegInfinity
    | n => n
    end
  else round_double z.

Definition rounds_to (v z : Z) : bool :=
  match round_double v with
  | JInt w => (w =? z)%Z
  | _ => false
  end.

(** For a double [z] of [d] decimal digits: the number with [k]
    significant digits that reads back as [z], if there is one; of two, the
    closer, and the one with the even last digit when they are as close. *)
Definition shortest_at (z d k : Z) : option Z :=
  let p := (10 ^ (d - k))%Z in
  let lo := (z / p * p)%Z in
  let hi := (lo + p)%Z in
  match rounds_to lo z, rounds_to hi z with
  | true, true =>
      if (z - lo <? hi - z)%Z then Some lo
      else if (hi - z <? z - lo)%Z then Some hi
      else if Z.even (z / p) then Some lo else Some hi
  | true, false => Some lo
  | false, true => Some hi
  | false, false => None
  end.

Fixpoint shortest_from (fuel : nat) (z d k : Z) : Z :=
  match fuel with
  | 0 => z
  | S fuel' =>
      if (d <=? k)%Z then z
      else
        match shortest_at z d k with
        | Some v => v
        | None => shortest_from fuel' z d (k + 1)
        end
  end.

(** The significant digits of a positive number: its decimal digits
    without the zeros at the end. *)
Fixpoint strip_zeros (fuel : nat) (v : Z) : Z :=
  match fuel with
  | 0 => v
  | S fuel' => if (v mod 10 =? 0)%Z then strip_zeros fuel' (v / 10) else v
  end.

(** [Number.prototype.toString] for a positive double that is an integer:
    the fewest digits that read back as the number, written out in full up
    to 21 digits and with an exponent beyond. *)
Definition positive_toString (z : Z) : string :=
  let d := Z.of_nat (String.length (string_of_Z z)) in
  let v := shortest_from 21 z d 1 in
  let n := String.length (string_of_Z v) in
  if n <=? 21 then string_of_Z v
  else
    match string_of_Z (strip_zeros n v) with
    | String c EmptyString => String c ("e+" ++ string_of_nat (n - 1))
    | String c r => String c ("." ++ r ++ "e+" ++ string_of_nat (n - 1))
    | EmptyString => EmptyString
    end.

Definition number_toString (z : Z) : string :=
  if (z =? 0)%Z then "0"
  else if (z <? 0)%Z then "-" ++ positive_toString (- z)
  else positive_toString z.

(** Template-literal conversion [`${n}`]. *)
Definition string_of_jsnum (n : jsnum) : string :=
  match n with
  | JNaN => "NaN"
  | JInfinity => "Infinity"
  | JNegInfinity => "-Infinity"
  | JInt z => number_toString z
  end.

(** [a >= b] for an array length [a]; any comparison with [NaN] is false. *)
Definition length_ge (a : nat) (b : jsnum) : bool :=
  match b with
  | JNaN => false
  | JInfinity => false
  | JNegInfinity => true
  | JInt k => (k <=? Z.of_nat a)%Z
  end.

(** Value of a digit in the given radix, for [parseInt]. *)
Definition digit_value (radix : Z) (c : ascii) : option Z :=
  let n := Z.of_nat (nat_of_ascii c) in
  let v := if ((48 <=? n) && (n <=? 57))%Z then Some (n - 48)%Z
           else if ((97 <=? n) && (n <=? 122))%Z then Some (n - 87)%Z
           else if ((65 <=? n) && (n <=? 90))%Z then Some (n - 55)%Z
           else None in
  match v with
  | Some d => if (d <? radix)%Z then Some d else None
  | None => None
  end.

(** Longest prefix of digits, most significant first; [None] when the
    prefix is empty. *)
Fixpoint parse_digits (radix : Z) (s : string) (acc : option Z) : option Z :=
  match s with
  | EmptyString => acc
  | String c r =>
      match digit_value radix c with
      | Some d =>
          parse_digits radix r
            (Some (match acc with Some a => a * radix + d | None => d end)%Z)
      | None => acc
      end
  end.

(** [parseInt(s)] without a radix argument: leading white space, an optional
    sign, an optional [0x]/[0X] prefix, then the digits; the integer they
    write is rounded to a double, as Node does. *)
Definition parseInt (s : string) : jsnum :=
  let s1 := trim_start s in
  let '(sign, s2) :=
    match s1 with
    | String "-"%char r => ((-1)%Z, r)
    | String "+"%char r => (1%Z, r)
    | _ => (1%Z, s1)
    end in
  let '(radix, s3) :=
    match s2 with
    | String "0"%char (String "x"%char r) => (16%Z, r)
    | String "0"%char (String "X"%char r) => (16%Z, r)
    | _ => (10%Z, s2)
    end in
  match parse_digits radix s3 None with
  | Some v => to_double (sign * v)
  | None => JNaN
  end.

(** ** Records ([Part]) *)

(** What a field of a [Part] holds. *)
Inductive value : Type :=
| VNull
| VStr (s : string)
| VNum (q : Q)
| VBool (b : bool).

(** A [Part] is a plain object, held as its own keys in the order in which
    [JSON.stringify] lists them: the array indices first, in ascending
    order, then the other keys in the order of their creation. *)
Definition Part : Type := list (string * value).

Fixpoint decimal_value (s : string) (acc : N) : option N :=
  match s with
  | EmptyString => Some acc
  | String c r =>
      let n := N_of_ascii c in
      if ((48 <=? n) && (n <=? 57))%N then decimal_value r (acc * 10 + (n - 48))%N
      else None
  end.

(** The array index a key writes, if any: decimal digits without a leading
    zero, below 2^32 - 1. *)
Definition array_index (k : string) : option N :=
  match k with
  | EmptyString => None
  | String "0"%char EmptyString => Some 0%N
  | String "0"%char _ => None
  | _ =>
      match decimal_value k 0 with
      | Some n => if (n <? 4294967295)%N then Some n else None
      | None => None
      end
  end.

(** The own property [k] of [o]. *)
Fixpoint obj_get (k : string) (o : Part) : option value :=
  match o with
  | [] => None
  | (k', v) :: r => if String.eqb k k' then Some v else obj_get k r
  end.

(** [o[k] = v] for a key that is no array index: an existing key keeps its
    place, a new key goes last. *)
Fixpoint obj_set_name (k : string) (v : value) (o : Part) : Part :=
  match o with
  | [] => [(k, v)]
  | (k', v') :: r =>
      if String.eqb k k' then (k', v) :: r else (k', v') :: obj_set_name k v r
  end.

(** [o[k] = v] for the array index [n]: an existing key keeps its place, a
    new key goes before the first greater index and before the other keys. *)
Fixpoint obj_set_index (n : N) (k : string) (v : value) (o : Part) : Part :=
  match o with
  | [] => [(k, v)]
  | (k', v') :: r =>
      if String.eqb k k' then (k', v) :: r
      else
        match array_index k' with
        | Some n' =>
            if (n <? n')%N then (k, v) :: o
            else (k', v') :: obj_set_index n k v r
        | None => (k, v) :: o
        end
  end.

(** [o[k] = v] on the own keys of an object. *)
Definition set_own (k : string) (v : value) (o : Part) : Part :=
  match array_index k with
  | Some n => obj_set_index n k v o
  | None => obj_set_name k v o
  end.

(** The object [serialized] while its row is processed: its own keys, and
    whether its prototype, [Object.prototype] at first, has become [null]. *)
Record object : Type := { null_prototype : bool; own : Part }.

(** [{}] *)
Definition empty_object : object := {| null_prototype := false; own := [] |}.

(** [o[k] = v] for a value that is null, a string, a number or a boolean.
    As long as the object inherits from [Object.prototype], assigning to
    [__proto__] goes to the inherited setter and creates no own key: null
    becomes the prototype, any other such value is ignored. *)
Definition obj_set (k : string) (v : value) (o : object) : object :=
  if String.eqb k "__proto__" && negb (null_prototype o) then
    match v with
    | VNull => {| null_prototype := true; own := own o |}
    | _ => o
    end
  else {| null_prototype := null_prototype o; own := set_own k v (own o) |}.

Definition has_key (k : string) (o : Part) : Prop := exists v, obj_get k o = Some v.


(** ** Exceptions, events and computations *)

(** A thrown [Error]: its class name and its [message]. What the script
    catches comes from the browser library, the tables or the serializers,
    and is taken to be an [Error] object. *)
Record exn : Type := { ename : string; message : string }.

(** [`${error}`], by [Error.prototype.toString]: the name and the message
    with a colon between them, or the one of the two that is not empty. *)
Definition exn_toString (e : exn) : string :=
  match ename e, message e with
  | EmptyString, msg => msg
  | name, EmptyString => name
  | name, msg => name ++ ": " ++ msg
  end.

(** Outcome of an operation that may throw. *)
Inductive res (A : Type) : Type :=
| Ok (a : A)
| Threw (e : exn).
Arguments Ok {A} a.
Arguments Threw {A} e.

Inductive level : Type := Log | Warn | Error.

(** Everything the script does that can be observed from outside. *)
Inductive event : Type :=
| Console (l : level) (msg : string)
| Goto (url : string)
| RequestInterception
| CallSerializeNumber (text : string)
| CallGeneric (text kind : string)
| CallCustom (endpoint field text : string)
| Yield (batch : list Part)
| ProgressStart (total : jsnum)
| ProgressIncrement
| ProgressStop
| WriteFile (path : string) (body : list Part)
| Queue (endpoint : string).

Definition trace : Type := list event.

(** A computation: what it did, and how it ended. *)
Definition M (A : Type) : Type := (trace * res A)%type.

Definition ret {A} (a : A) : M A := ([], Ok a).
Definition throw {A} (e : exn) : M A := ([], Threw e).
Definition emit (ev : event) : M unit := ([ev], Ok tt).
Definition lift {A} (r : res A) : M A := ([], r).

Definition bind {A B} (m : M A) (k : A -> M B) : M B :=
  match m with
  | (t, Ok a) => let '(t', r) := k a in (t ++ t', r)
  | (t, Threw e) => (t, Threw e)
  end.

(** [try { m } catch (error) { h error }] *)
Definition try_catch {A} (m : M A) (h : exn -> M A) : M A :=
  match m with
  | (t, Ok a) => (t, Ok a)
  | (t, Threw e) => let '(t', r) := h e in (t ++ t', r)
  end.

Declare Scope js_scope.
Delimit Scope js_scope with js.
Notation "x <- m ;; k" := (bind m (fun x => k))
  (at level 61, m at next level, right associativity) : js_scope.
Notation "m ;; k" := (bind m (fun _ => k))
  (at level 61, right associativity) : js_scope.
Local Open Scope js_scope.

Definition console (l : level) (msg : string) : M unit := emit (Console l msg).

(** ** The site, as the script can observe it *)

(** One [td.td__spec] cell: the [innerText] of its [.specLabel] (the
    [$eval] throws when the label is missing) and
    [childNodes[1]?.textContent] ([None] for [undefined] or [null]). *)
Record Spec : Type := {
  specLabel : res string;
  specText : res (option string)
}.

(** One [.tr__product] row: the [innerText] of the name paragraph, the
    [textContent] of the price cell ([None] for [null]) and the spec cells;
    each access throws when its node is missing or the page is gone. *)
Record Product : Type := {
  nameText : res string;
  priceText : res (option string);
  specEls : res (list Spec)
}.

Record Site : Type := {
  (** [mkdir] and [Cluster.launch] *)
  launch : res unit;
  (** [page.goto('https://pcpartpicker.com')]: the status of the response,
      [None] when there is no response object *)
  root : res (option nat);
  (** [page.waitForSelector('nav', { timeout: 5000 })] *)
  nav : res unit;
  (** For an endpoint, the [innerText] of the last entry of [.pagination]
      on its first page; throws when the navigation, the bounded wait for
      [.pagination] or the [$eval] fails. *)
  pagination : string -> res string;
  (** For an endpoint and a page number, the product rows of that page;
      throws when the navigation to the page, the wait for network idleness
      or the query fails. *)
  listing : string -> nat -> res (list Product)
}.

(** ** Constants *)

Definition BASE_URL : string := "https://pcpartpicker.com/products".
Definition STAGING_DIRECTORY : string := "data-staging".

Definition ALL_ENDPOINTS : list string :=
  [ "cpu"; "cpu-cooler"; "motherboard"; "memory"; "internal-hard-drive";
    "video-card"; "case"; "power-supply"; "os"; "monitor"; "sound-card";
    "wired-network-card"; "wireless-network-card"; "headphones"; "keyboard";
    "mouse"; "speakers"; "webcam"; "case-accessory"; "case-fan";
    "fan-controller"; "thermal-paste"; "external-hard-drive"; "optical-drive";
    "ups" ].

(** [join(STAGING_DIRECTORY, 'json', `${fileName}.json`)] *)
Definition artifact_path (fileName : string) : string :=
  STAGING_DIRECTORY ++ "/json/" ++ fileName ++ ".json".

(** ** The command line *)

(** [a.indexOf(x)], [None] for [-1]. *)
Fixpoint indexOf (x : string) (a : list string) : option nat :=
  match a with
  | [] => None
  | y :: r =>
      if String.eqb y x then Some 0
      else match indexOf x r with Some i => Some (S i) | None => None end
  end.

(** [inputEndpoints] is [process.argv.slice(2)]. *)
Definition endpointsToScrape (inputEndpoints : list string) : list string :=
  match List.length inputEndpoints with
  | 0 => ALL_ENDPOINTS
  | S _ => inputEndpoints
  end.

(** The module-level computation of [limit], with the warning it may print. *)
Definition limit_of (inputEndpoints : list string) : M jsnum :=
  match indexOf "-n" inputEndpoints with
  | None => ret JInfinity
  | Some limitIndex =>
      match nth_error inputEndpoints (limitIndex + 1) with
      | None => ret JInfinity
      | Some "" => ret JInfinity
      | Some s =>
          let limitValue := parseInt s in
          if negb (isNaN limitValue) then ret limitValue
          else
            console Warn "Invalid limit value provided. Defaulting to Infinity." ;;
            ret JInfinity
      end
  end.

(** ** Inherited properties *)

(** The string keys of [Object.prototype]: a plain object answers to them
    even when it has no such key of its own. *)
Definition Object_prototype_members : list string :=
  [ "constructor"; "__defineGetter__"; "__defineSetter__"; "hasOwnProperty";
    "__lookupGetter__"; "__lookupSetter__"; "isPrototypeOf";
    "propertyIsEnumerable"; "toString"; "valueOf"; "__proto__";
    "toLocaleString" ].

Definition inherited_member (name : string) : bool :=
  existsb (String.eqb name) Object_prototype_members.

(** What reading a property of a member of [Object.prototype] gives, as far
    as the array destructuring [const [a, b] = mapped] can tell: nothing; a
    string, of which the first two characters are taken; or anything else,
    the destructuring (or the read itself) throwing. The strings found
    there are names of built-in functions, of two characters at least. *)
Inductive inherited_prop : Type :=
| NoProperty
| NameString (a b : ascii)
| NotIterable (e : exn).

(** The error of [const [a, b] = mapped] for a value that is not iterable. *)
Definition not_iterable : exn :=
  {| ename := "TypeError"; message := "mapped is not iterable" |}.

(** ** The jobs of the cluster *)

(** The cluster runs at most [maxConcurrency] jobs at a time, started in
    queue order: the running jobs are the first five that are not over. *)
Definition maxConcurrency : nat := 5.

(** The next event of the [i]-th of the jobs that are not over, and the
    jobs left. *)
Fixpoint next_event (i : nat) (jobs : list trace) {struct jobs}
    : option (event * list trace) :=
  match jobs with
  | [] => None
  | job :: others =>
      match i with
      | 0 =>
          match job with
          | [] => None
          | ev :: [] => Some (ev, others)
          | ev :: rest => Some (ev, rest :: others)
          end
      | S i' =>
          match next_event i' others with
          | Some (ev, others') => Some (ev, job :: others')
          | None => None
          end
      end
  end.

(** The events of the jobs in the order in which they happen, each choice
    naming the running job that moves next; when the choices run out the
    jobs left finish one after the other. *)
Fixpoint interleave (choices : list nat) (jobs : list trace) : trace :=
  match choices with
  | [] => List.concat jobs
  | choice :: later =>
      match next_event (choice mod Nat.min maxConcurrency (List.length jobs))
                       jobs with
      | Some (ev, jobs') => ev :: interleave later jobs'
      | None => List.concat jobs
      end
  end.

(** ** The generator [scrape] and the cluster task *)

Section Scraper.

(** [serialization-map.json] and [serializers.ts] are not part of the
    sources at hand; the pipeline is modelled for any content of theirs.
    [map endpoint] is the section the table has under the key [endpoint],
    [None] when it has no such key, and a section sends a raw label that is
    one of its keys to [(fieldName, kind)]. [inherited] is what the run time
    puts behind the members of [Object.prototype]: for the name of a member
    and a property name, what reading that property of the member gives.
    [customSerializers endpoint] and then [field] is [None] when
    [customSerializers[endpoint]?.[field]] evaluates to [undefined] or to
    anything else the test [if (customSerializer)] rejects, and otherwise
    is what calling that value on a text does; a call returns a value or
    throws, as it does when what is found is no function. *)
Variable map : string -> option (string -> option (string * string)).
Variable inherited : string -> string -> inherited_prop.
Variable customSerializers :
  string -> option (string -> option (string -> res value)).
Variable genericSerialize : string -> string -> res value.
Variable serializeNumber : string -> res value.

Variable site : Site.
Variable limit : jsnum.

(** The order in which the cluster lets its running jobs move. *)
Variable schedule : list nat.

Definition call_serializeNumber (text : string) : M value :=
  emit (CallSerializeNumber text) ;; lift (serializeNumber text).

Definition call_genericSerialize (text kind : string) : M value :=
  emit (CallGeneric text kind) ;; lift (genericSerialize text kind).

Definition call_custom (endpoint field : string)
    (customSerializer : string -> res value) (text : string) : M value :=
  emit (CallCustom endpoint field text) ;; lift (customSerializer text).

(** [customSerializers[endpoint]?.[snakeSpecName]] *)
Definition custom_lookup (endpoint snakeSpecName : string)
    : option (string -> res value) :=
  match customSerializers endpoint with
  | Some registry => registry snakeSpecName
  | None => None
  end.

(** [map[endpoint][specName]], with what [const [a, b] = mapped] makes of
    it when it is not [undefined]: [None] for [undefined], a pair for an
    entry of the table. A key that the table or the section lacks is looked
    up in [Object.prototype]; reading a property of [undefined] throws, and
    so does destructuring a function or an object. *)
Definition map_lookup (endpoint specName : string)
    : M (option (string * string)) :=
  match map endpoint with
  | Some section =>
      match section specName with
      | Some mapped => ret (Some mapped)
      | None =>
          if inherited_member specName then throw not_iterable else ret None
      end
  | None =>
      if inherited_member endpoint then
        match inherited endpoint specName with
        | NoProperty => ret None
        | NameString a b =>
            ret (Some (String a EmptyString, String b EmptyString))
        | NotIterable e => throw e
        end
      else
        throw {| ename := "TypeError";
                 message := "Cannot read properties of undefined (reading '"
                            ++ specName ++ "')" |}
  end.

(** [specValue == null || specValue.trim() === ''] *)
Definition is_blank (specValue : option string) : bool :=
  match specValue with
  | None => true
  | Some s => String.eqb (trim s) ""
  end.

(** Body of [for (const spec of specs)], lines 176-207. *)
Definition serialize_spec (endpoint : string) (spec : Spec)
    (serialized : object) : M object :=
  l <- lift (specLabel spec) ;;
  let specName := trim l in
  mapped <- map_lookup endpoint specName ;;
  match mapped with
  | None =>
      console Warn ("Unknown spec '" ++ specName ++ "' for endpoint '"
                    ++ endpoint ++ "'. Skipping...") ;;
      ret serialized
  | Some (snakeSpecName, mappedSpecSerializationType) =>
      specValue <- lift (specText spec) ;;
      if is_blank specValue then
        ret (obj_set snakeSpecName VNull serialized)
      else
        let text := match specValue with Some s => s | None => "" end in
        if String.eqb mappedSpecSerializationType "custom" then
          match custom_lookup endpoint snakeSpecName with
          | Some customSerializer =>
              v <- call_custom endpoint snakeSpecName customSerializer text ;;
              ret (obj_set snakeSpecName v serialized)
          | None =>
              console Warn ("No custom serializer found for '"
                            ++ snakeSpecName ++ "' in endpoint '"
                            ++ endpoint ++ "'.") ;;
              ret (obj_set snakeSpecName VNull serialized)
          end
        else
          v <- call_genericSerialize text mappedSpecSerializationType ;;
          ret (obj_set snakeSpecName v serialized)
  end.

Fixpoint specs_loop (endpoint : string) (specs : list Spec)
    (serialized : object) : M object :=
  match specs with
  | [] => ret serialized
  | spec :: rest =>
      serialized' <- serialize_spec endpoint spec serialized ;;
      specs_loop endpoint rest serialized'
  end.

(** [priceText ? serializeNumber(priceText) : null] *)
Definition serialize_price (priceText : option string) : M value :=
  match priceText with
  | None => ret VNull
  | Some "" => ret VNull
  | Some text => call_serializeNumber text
  end.

(** The [try] block of one product, lines 161-208, up to the [push]; what
    is pushed is kept as the own keys of [serialized], which is all that
    [JSON.stringify] writes. *)
Definition serialize_product (endpoint : string) (productEl : Product)
    : M Part :=
  n <- lift (nameText productEl) ;;
  let serialized := obj_set "name" (VStr (replaceAll_newline n)) empty_object in
  priceText <- lift (priceText productEl) ;;
  price <- serialize_price priceText ;;
  let serialized := obj_set "price" price serialized in
  specs <- lift (specEls productEl) ;;
  serialized <- specs_loop endpoint specs serialized ;;
  ret (own serialized).

(** One product: [try { ...; pageProducts.push(serialized) } catch ...]. *)
Definition process_product (endpoint : string) (productEl : Product)
    (pageProducts : list Part) : M (list Part) :=
  try_catch
    (serialized <- serialize_product endpoint productEl ;;
     ret (pageProducts ++ [serialized]))
    (fun error =>
       console Error ("Error processing product: " ++ message error) ;;
       ret pageProducts).

(** [for (const productEl of productEls)], lines 157-220. *)
Fixpoint items_loop (endpoint : string) (productEls : list Product)
    (pageProducts : list Part) : M (list Part) :=
  match productEls with
  | [] => ret pageProducts
  | productEl :: rest =>
      pageProducts' <- process_product endpoint productEl pageProducts ;;
      if length_ge (List.length pageProducts') limit then
        console Log ("Reached limit of " ++ string_of_jsnum limit
                     ++ " products for endpoint: " ++ endpoint) ;;
        ret pageProducts'
      else items_loop endpoint rest pageProducts'
  end.

Definition getNumPages (endpoint : string) : M jsnum :=
  emit (Goto (BASE_URL ++ "/" ++ endpoint)) ;;
  text <- lift (pagination site endpoint) ;;
  ret (parseInt text).

Definition page_url (endpoint : string) (currentPage : nat) : string :=
  BASE_URL ++ "/" ++ endpoint ++ "/#page=" ++ string_of_nat currentPage.

(** One turn of the page loop up to the [yield], lines 147-222. *)
Definition scrape_page (endpoint : string) (numPages : jsnum)
    (currentPage : nat) : M (list Part) :=
  (if 1 <? currentPage then emit (Goto (page_url endpoint currentPage))
   else ret tt) ;;
  productEls <- lift (listing site endpoint currentPage) ;;
  console Log ("Processing page " ++ string_of_nat currentPage ++ " of "
               ++ string_of_jsnum numPages ++ " for endpoint: " ++ endpoint) ;;
  pageProducts <- items_loop endpoint productEls [] ;;
  emit (Yield pageProducts) ;;
  ret pageProducts.

(** [for (let currentPage = 1; currentPage <= numPages; currentPage++)],
    with [remaining] the number of turns left before the test fails. *)
Fixpoint pages_loop (endpoint : string) (numPages : jsnum)
    (remaining currentPage : nat) : M unit :=
  match remaining with
  | 0 => ret tt
  | S remaining' =>
      pageProducts <- scrape_page endpoint numPages currentPage ;;
      if length_ge (List.length pageProducts) limit then ret tt
      else pages_loop endpoint numPages remaining' (S currentPage)
  end.

(** Number of [currentPage] values from 1 with [currentPage <= numPages]:
    none for [NaN]. The counter is taken to be exact; in the code it stops
    advancing at 2^53, so that for a page count of 2^53 or more, [Infinity]
    included, its loop ends only by a [break] or an exception, which lies
    outside what this count describes. *)
Definition pages_count (numPages : jsnum) : nat :=
  match numPages with
  | JInt n => Z.to_nat n
  | JInfinity => Z.to_nat (2 ^ 1024)
  | _ => 0
  end.

Definition scrape (endpoint : string) : M unit :=
  console Log ("Starting to scrape endpoint: " ++ endpoint) ;;
  emit RequestInterception ;;
  numPages <- getNumPages endpoint ;;
  console Log ("Found " ++ string_of_jsnum numPages
               ++ " pages for endpoint: " ++ endpoint) ;;
  pages_loop endpoint numPages (pages_count numPages) 1 ;;
  console Log ("Finished scraping endpoint: " ++ endpoint).

(** The batches a generator run has yielded, in order. *)
Definition yields (t : trace) : list (list Part) :=
  flat_map (fun ev => match ev with Yield b => [b] | _ => [] end) t.

(** [for await (const pageParts of ...) { allParts.push(...pageParts);
    progressBar.increment() }], run over what the generator did. *)
Fixpoint for_await (t : trace) (allParts : list Part) : trace * list Part :=
  match t with
  | [] => ([], allParts)
  | Yield pageParts :: t' =>
      let '(t'', a) := for_await t' (allParts ++ pageParts) in
      (ProgressIncrement :: t'', a)
  | ev :: t' =>
      let '(t'', a) := for_await t' allParts in (ev :: t'', a)
  end.

(** The [try] block of the task, lines 69-79, with the content of
    [allParts] when it is left. *)
Definition try_block (endpoint : string) : M unit * list Part :=
  match getNumPages endpoint with
  | (t1, Threw e) => ((t1, Threw e), [])
  | (t1, Ok numPages) =>
      let '(t2, r2) := scrape endpoint in
      let '(t2', allParts) := for_await t2 [] in
      ((t1 ++ ProgressStart numPages :: t2', r2) ;; emit ProgressStop,
       allParts)
  end.

(** The task registered with [cluster.task], lines 63-91; the result of
    the [try]/[catch] is the file name to write, if any. Setting the
    viewport and the outcome of [writeFile] play no part in what is decided
    here and are left out. *)
Definition task (endpoint : string) : M unit :=
  let '(body, allParts) := try_block endpoint in
  fileName <-
    try_catch (body ;; ret (Some endpoint))
      (fun error =>
         console Warn ("[" ++ endpoint ++ "] Aborted unexpectedly:"
                       ++ String "010" (String "009" (exn_toString error))) ;;
         match allParts with
         | _ :: _ => ret (Some (endpoint ++ ".incomplete")%string)
         | [] => ret None
         end) ;;
  match fileName with
  | Some f => emit (WriteFile (artifact_path f) allParts)
  | None => ret tt
  end.

Fixpoint queue_all (endpoints : list string) : M unit :=
  match endpoints with
  | [] => ret tt
  | endpoint :: rest => emit (Queue endpoint) ;; queue_all rest
  end.

Definition status_text (res : option nat) : string :=
  match res with
  | Some status => string_of_nat status
  | None => "?"
  end.

(** The job queued first, lines 93-110. *)
Definition initial_fetch_test (endpoints : list string) : M unit :=
  emit (Goto "https://pcpartpicker.com") ;;
  res <- lift (root site) ;;
  passed <-
    try_catch (lift (nav site) ;; ret true)
      (fun _ =>
         console Error ("Initial fetch test failed (HTTP " ++ status_text res
                        ++ "). Try running with `{ headless: false }` to see what the problem is.") ;;
         ret false) ;;
  if (passed : bool) then queue_all endpoints else ret tt.

Definition queued (t : trace) : list string :=
  flat_map (fun ev => match ev with Queue e => [e] | _ => [] end) t.

Definition writes (t : trace) : list (string * list Part) :=
  flat_map (fun ev => match ev with WriteFile p b => [(p, b)] | _ => [] end) t.

(** [scrapeInParallel]: the cluster runs the initial fetch test, then one
    task per queued endpoint, started in queue order and up to five at a
    time, their events falling as the [schedule] has it; a job that throws
    is reported by the cluster and does not reject [cluster.idle()]. *)
Definition scrapeInParallel (endpoints : list string) : M unit :=
  lift (launch site) ;;
  let t0 := fst (initial_fetch_test endpoints) in
  (t0 ++ interleave schedule
           (List.map (fun endpoint => fst (task endpoint)) (queued t0)),
   Ok tt).

End Scraper.

(** The whole script: [limit] is computed at module level, then
    [scrapeInParallel(endpointsToScrape)] is started. *)
Definition main map inherited customSerializers genericSerialize
    serializeNumber (schedule : list nat) (site : Site)
    (inputEndpoints : list string) : M unit :=
  limit <- limit_of inputEndpoints ;;
  scrapeInParallel map inherited customSerializers genericSerialize
    serializeNumber site limit schedule (endpointsToScrape inputEndpoints).

(** The script never sets an exit code: the process ends with 0 once the
    promise of [scrapeInParallel] is settled and nothing is pending, and
    with 1 when that promise is rejected, since nothing handles it. *)
Definition exit_code (run : M unit) : Z :=
  match snd run with
  | Ok _ => 0%Z
  | Threw _ => 1%Z
  end.

(** ** The deadline of a job *)




(** ** A small site and small tables, to run the definitions on *)

Module Demo.

Definition cpu_section (specName : string) : option (string * string) :=
  if String.eqb specName "Core Count" then Some ("core_count", "number")
  else if String.eqb specName "Integrated Graphics" then Some ("graphics", "string")
  else if String.eqb specName "Mode" then Some ("mode", "custom")
  else None.

Definition map (endpoint : string) : option (string -> option (string * string)) :=
  if String.eqb endpoint "cpu" then Some cpu_section else None.

(** The string keys a function answers to through [Function.prototype]:
    functions, and two accessors that throw. *)
Definition restricted : exn :=
  {| ename := "TypeError";
     message := "'caller', 'callee', and 'arguments' properties may not be accessed on strict mode functions or the arguments objects for calls to them" |}.

Definition function_property (property : string) : inherited_prop :=
  if String.eqb property "arguments" || String.eqb property "caller" then
    NotIterable restricted
  else if existsb (String.eqb property) ["apply"; "bind"; "call"; "length"]
          || inherited_member property then
    NotIterable not_iterable
  else NoProperty.

(** The static members of [Object], as of ECMAScript 2023. *)
Definition Object_members : list string :=
  [ "prototype"; "assign"; "create"; "defineProperties"; "defineProperty";
    "entries"; "freeze"; "fromEntries"; "getOwnPropertyDescriptor";
    "getOwnPropertyDescriptors"; "getOwnPropertyNames";
    "getOwnPropertySymbols"; "getPrototypeOf"; "hasOwn"; "is";
    "isExtensible"; "isFrozen"; "isSealed"; "keys"; "preventExtensions";
    "seal"; "setPrototypeOf"; "values" ].

(** The members of [Object.prototype] as a run time has them. [__proto__]
    gives [Object.prototype] itself, behind whose members are functions,
    and null behind its own [__proto__]. [constructor] is the function
    [Object]. Each of the others is a function that has the name of the
    member under [name]. *)
Definition inherited (member property : string) : inherited_prop :=
  if String.eqb member "__proto__" then
    if inherited_member property then NotIterable not_iterable else NoProperty
  else if String.eqb property "name" then
    if String.eqb member "constructor" then NameString "O" "b"
    else
      match member with
      | String a (String b _) => NameString a b
      | _ => NoProperty
      end
  else if String.eqb member "constructor"
          && existsb (String.eqb property) Object_members then
    NotIterable not_iterable
  else function_property property.

(** No custom serializer is registered. *)
Definition customSerializers (endpoint : string)
    : option (string -> option (string -> res value)) := None.

Definition serializeNumber (text : string) : res value :=
  match parseInt text with
  | JInt z => Ok (VNum (inject_Z z))
  | _ => Ok VNull
  end.

Definition genericSerialize (text kind : string) : res value :=
  if String.eqb kind "number" then serializeNumber text
  else Ok (VStr (trim text)).

Definition boom : exn := {| ename := "Error"; message := "boom" |}.

Definition spec (l text : string) : Spec :=
  {| specLabel := Ok l; specText := Ok (Some text) |}.

Definition product (n : string) (specs : list Spec) : Product :=
  {| nameText := Ok n; priceText := Ok (Some "129"); specEls := Ok specs |}.

(** A row with a cell labelled as a member of [Object.prototype]. *)
Definition a3 : Product :=
  product "A3" [spec "constructor" "x"; spec "Core Count" "4"].

(** A row with cells whose labels a function answers to, or not. *)
Definition a4 : Product :=
  product "A4" [spec "name" "x"; spec "Core Count" "4"].

(** A row whose name paragraph is missing. *)
Definition broken : Product :=
  {| nameText := Threw boom; priceText := Ok None; specEls := Ok [] |}.

Definition a1 : Product := product "A1" [spec "Core Count" "8"].
Definition a2 : Product := product "A2" [spec "Mystery Spec" "x"; spec "Core Count" "6"].
Definition b1 : Product := product "B1" [spec "Mode" "  "].
Definition b2 : Product := product "B2" [spec "Mode" "64-bit"].

(** Two pages for [cpu], a broken row on the first; nothing else answers. *)
Definition two_pages : Site :=
  {| launch := Ok tt;
     root := Ok (Some 200);
     nav := Ok tt;
     pagination := fun endpoint =>
       if String.eqb endpoint "cpu" then Ok "2" else Threw boom;
     listing := fun endpoint currentPage =>
       if String.eqb endpoint "cpu" then
         match currentPage with
         | 1 => Ok [a1; broken; a2]
         | 2 => Ok [b1; b2]
         | _ => Threw boom
         end
       else Threw boom |}.

(** The same site when the second page cannot be loaded. *)
Definition second_page_down : Site :=
  {| launch := Ok tt;
     root := Ok (Some 200);
     nav := Ok tt;
     pagination := pagination two_pages;
     listing := fun endpoint currentPage =>
       match currentPage with
       | 1 => listing two_pages endpoint 1
       | _ => Threw boom
       end |}.

(** The same site when it answers 403 and never shows its [nav]. *)
Definition blocked : Site :=
  {| launch := Ok tt;
     root := Ok (Some 403);
     nav := Threw {| ename := "TimeoutError"; message := "Waiting for selector `nav` failed" |};
     pagination := pagination two_pages;
     listing := listing two_pages |}.

(** A category whose pagination shows no number. *)
Definition no_count : Site :=
  {| launch := Ok tt;
     root := Ok (Some 200);
     nav := Ok tt;
     pagination := fun _ => Ok "Next";
     listing := fun _ _ => Threw boom |}.

Definition scrape :=
  scrape map inherited customSerializers genericSerialize serializeNumber.
Definition task :=
  task map inherited customSerializers genericSerialize serializeNumber.

(** The run in which each job ends before the next one moves. *)
Definition main :=
  main map inherited customSerializers genericSerialize serializeNumber [].

End Demo.


(** ** What a trace shows *)

(** Events of the serializers and the warnings about the tables. *)
Definition serializer_event (ev : event) : bool :=
  match ev with
  | Console Warn _ | CallSerializeNumber _ | CallGeneric _ _
  | CallCustom _ _ _ => true
  | _ => false
  end.

(** Events of the work on the rows of one page. *)
Definition item_event (ev : event) : bool :=
  match ev with
  | Console _ _ | CallSerializeNumber _ | CallGeneric _ _
  | CallCustom _ _ _ => true
  | _ => false
  end.

(** Events a run of the generator can show. *)
Definition generator_event (ev : event) : bool :=
  match ev with
  | Console _ _ | CallSerializeNumber _ | CallGeneric _ _
  | CallCustom _ _ _ | Goto _ | RequestInterception | Yield _ => true
  | _ => false
  end.

(** The pages asked for, in order. *)
Definition gotos (t : trace) : list string :=
  flat_map (fun ev => match ev with Goto u => [u] | _ => [] end) t.

(** The lines printed with [console.error], in order. *)
Definition error_lines (t : trace) : list string :=
  flat_map (fun ev => match ev with Console Error m => [m] | _ => [] end) t.

(** The serializer calls, in order. *)
Definition serializer_calls (t : trace) : list event :=
  filter (fun ev => match ev with
                    | CallSerializeNumber _ | CallGeneric _ _
                    | CallCustom _ _ _ => true
                    | _ => false
                    end) t.

(** The warning printed for a label the table does not know. *)
Definition unknown_spec_warning (endpoint specName : string) : event :=
  Console Warn ("Unknown spec '" ++ specName ++ "' for endpoint '"
                ++ endpoint ++ "'. Skipping...").

(** The warning printed for a [custom] field without a serializer. *)
Definition missing_custom_warning (endpoint snakeSpecName : string) : event :=
  Console Warn ("No custom serializer found for '" ++ snakeSpecName
                ++ "' in endpoint '" ++ endpoint ++ "'.").

(** The warning printed when the [try] block of a task is left by an
    exception. *)
Definition abort_warning (endpoint : string) (error : exn) : event :=
  Console Warn ("[" ++ endpoint ++ "] Aborted unexpectedly:"
                ++ String "010" (String "009" (exn_toString error))).

Section Rows.

Variable map : string -> option (string -> option (string * string)).
Variable inherited : string -> string -> inherited_prop.
Variable customSerializers :
  string -> option (string -> option (string -> res value)).
Variable genericSerialize : string -> string -> res value.
Variable serializeNumber : string -> res value.

(** The record of a row whose processing goes through; nothing for a row
    whose processing throws. *)
Definition kept (endpoint : string) (productEl : Product) : list Part :=
  match snd (serialize_product map inherited customSerializers genericSerialize
               serializeNumber endpoint productEl) with
  | Ok serialized => [serialized]
  | Threw _ => []
  end.

(** The line printed for a row whose processing throws; nothing for a row
    whose processing goes through. *)
Definition dropped (endpoint : string) (productEl : Product) : list string :=
  match snd (serialize_product map inherited customSerializers genericSerialize
               serializeNumber endpoint productEl) with
  | Ok _ => []
  | Threw error => [("Error processing product: " ++ message error)%string]
  end.

(** The rows of a page of the site, none when the page does not load. *)
Definition rows (site : Site) (endpoint : string) (p : nat) : list Product :=
  match listing site endpoint p with
  | Ok productEls => productEls
  | Threw _ => []
  end.

(** The batch the item loop makes of the rows of a page. *)
Definition page_batch (site : Site) (limit : jsnum) (endpoint : string)
    (p : nat) : list Part :=
  match snd (items_loop map inherited customSerializers genericSerialize serializeNumber
               limit endpoint (rows site endpoint p) []) with
  | Ok pageProducts => pageProducts
  | Threw _ => []
  end.

(** The section of a category never writes the field [name]. *)
Definition name_reserved (endpoint : string) : Prop :=
  forall section label field kind,
    map endpoint = Some section ->
    section label = Some (field, kind) ->
    field <> "name".

(** A record with a string under [name] and some value under [price]. *)
Definition named_and_priced (record : Part) : Prop :=
  (exists s, obj_get "name" record = Some (VStr s)) /\ has_key "price" record.

End Rows.

(** ** More of what a trace and a record show *)

(** Number of [progressBar.increment()] calls. *)
Definition increments (t : trace) : nat :=
  List.length
    (filter (fun ev => match ev with ProgressIncrement => true | _ => false end) t).

(** The totals the progress bar was started with, in order. *)
Definition progress_totals (t : trace) : list jsnum :=
  flat_map (fun ev => match ev with ProgressStart n => [n] | _ => [] end) t.

(** No line feed in [s]. *)
Fixpoint no_newline (s : string) : bool :=
  match s with
  | EmptyString => true
  | String c r => negb (Ascii.eqb c "010"%char) && no_newline r
  end.


Section Fields.

Variable map : string -> option (string -> option (string * string)).

(** [field] is the output field of some label of the section of [endpoint]. *)
Definition mapped_field (endpoint field : string) : Prop :=
  exists section label kind,
    map endpoint = Some section /\ section label = Some (field, kind).

(** The section of a category never writes the field [k]. *)
Definition field_reserved (endpoint k : string) : Prop :=
  forall field, mapped_field endpoint field -> field <> k.

End Fields.


(** * Properties *)

(** ** Computations *)

Lemma fst_bind {A B} (m : M A) (k : A -> M B) :
  fst (bind m k) =
  fst m ++ match snd m with Ok a => fst (k a) | Threw _ => [] end.
Proof.
  destruct m as [t [a|e]]; simpl.
  - destruct (k a); reflexivity.
  - now rewrite app_nil_r.
Qed.

Lemma snd_bind {A B} (m : M A) (k : A -> M B) :
  snd (bind m k) = match snd m with Ok a => snd (k a) | Threw e => Threw e end.
Proof.
  destruct m as [t [a|e]]; simpl; [destruct (k a)|]; reflexivity.
Qed.

Lemma bind_ret_l {A B} (a : A) (k : A -> M B) : bind (ret a) k = k a.
Proof. unfold bind, ret. now destruct (k a). Qed.

Lemma bind_assoc {A B C} (m : M A) (k : A -> M B) (h : B -> M C) :
  bind (bind m k) h = bind m (fun a => bind (k a) h).
Proof.
  destruct m as [t [a|e]]; simpl; [|reflexivity].
  destruct (k a) as [t' [b|e]]; simpl; [|reflexivity].
  destruct (h b) as [t'' r]. now rewrite app_assoc.
Qed.

Lemma fst_try_catch {A} (m : M A) (h : exn -> M A) :
  fst (try_catch m h) =
  fst m ++ match snd m with Ok _ => [] | Threw e => fst (h e) end.
Proof.
  destruct m as [t [a|e]]; simpl.
  - now rewrite app_nil_r.
  - destruct (h e); reflexivity.
Qed.

Lemma snd_try_catch {A} (m : M A) (h : exn -> M A) :
  snd (try_catch m h) = match snd m with Ok a => Ok a | Threw e => snd (h e) end.
Proof.
  destruct m as [t [a|e]]; simpl; [|destruct (h e)]; reflexivity.
Qed.

Lemma Forall_bind {A B} (P : event -> Prop) (m : M A) (k : A -> M B) :
  Forall P (fst m) ->
  (forall a, snd m = Ok a -> Forall P (fst (k a))) ->
  Forall P (fst (bind m k)).
Proof.
  intros Hm Hk. rewrite fst_bind. apply Forall_app. split; [exact Hm|].
  destruct (snd m) as [a|e]; [now apply Hk | constructor].
Qed.

Lemma Forall_try_catch {A} (P : event -> Prop) (m : M A) (h : exn -> M A) :
  Forall P (fst m) ->
  (forall e, snd m = Threw e -> Forall P (fst (h e))) ->
  Forall P (fst (try_catch m h)).
Proof.
  intros Hm Hh. rewrite fst_try_catch. apply Forall_app. split; [exact Hm|].
  destruct (snd m) as [a|e]; [constructor | now apply Hh].
Qed.

(** ** Strings and objects *)

Lemma all_ws_trim_start (s : string) : all_ws (trim_start s) = all_ws s.
Proof.
  assert (H : forall n s, String.length s <= n ->
                          all_ws (trim_start s) = all_ws s).
  { clear s. induction n as [|n IH]; intros s Hlen.
    - destruct s; [reflexivity | simpl in Hlen; lia].
    - destruct s as [|c1 r1]; [reflexivity|]. simpl in Hlen.
      cbn [trim_start all_ws].
      destruct (is_ws c1) eqn:E1; [apply IH; lia|].
      destruct r1 as [|c2 r2]; [cbn [all_ws]; now rewrite E1|].
      simpl in Hlen.
      destruct (is_ws2 c1 c2) eqn:E2; [apply IH; lia|].
      destruct r2 as [|c3 r3]; [cbn [all_ws]; now rewrite E1, E2|].
      simpl in Hlen.
      destruct (is_ws3 c1 c2 c3) eqn:E3; [apply IH; lia|].
      cbn [all_ws]. now rewrite E1, E2, E3. }
  now apply (H (String.length s)).
Qed.

Lemma trim_end_empty (s : string) : trim_end s = "" <-> all_ws s = true.
Proof.
  destruct s as [|c r]; [now split|].
  cbn [trim_end]. destruct (all_ws (String c r)); split; congruence.
Qed.

(** The test [s.trim() === ''] holds exactly of the strings made of white
    space and line terminators only. *)
Lemma trim_empty_iff (s : string) : trim s = "" <-> all_ws s = true.
Proof.
  unfold trim. rewrite trim_end_empty. now rewrite all_ws_trim_start.
Qed.

Lemma trim_all_ws (s : string) : all_ws s = true -> trim s = "".
Proof. apply trim_empty_iff. Qed.

Lemma obj_get_set_name_same (k : string) (v : value) (o : Part) :
  obj_get k (obj_set_name k v o) = Some v.
Proof.
  induction o as [|[k' v'] r IH]; simpl.
  - now rewrite String.eqb_refl.
  - destruct (String.eqb k k') eqn:E; simpl; rewrite E; [reflexivity | exact IH].
Qed.

Lemma obj_get_set_name_other (k k' : string) (v : value) (o : Part) :
  k <> k' -> obj_get k (obj_set_name k' v o) = obj_get k o.
Proof.
  intros Hne. induction o as [|[k0 v0] r IH]; simpl.
  - destruct (String.eqb_spec k k'); [contradiction | reflexivity].
  - destruct (String.eqb_spec k' k0) as [->|Hk0]; simpl.
    + destruct (String.eqb_spec k k0); [contradiction | reflexivity].
    + destruct (String.eqb k k0); [reflexivity | exact IH].
Qed.

Lemma obj_get_set_index_same (n : N) (k : string) (v : value) (o : Part) :
  obj_get k (obj_set_index n k v o) = Some v.
Proof.
  induction o as [|[k' v'] r IH]; cbn [obj_set_index obj_get].
  - now rewrite String.eqb_refl.
  - destruct (String.eqb k k') eqn:E.
    + cbn [obj_get]. now rewrite E.
    + destruct (array_index k') as [n'|].
      * destruct (n <? n')%N; cbn [obj_get].
        -- now rewrite String.eqb_refl.
        -- now rewrite E.
      * cbn [obj_get]. now rewrite String.eqb_refl.
Qed.

Lemma obj_get_set_index_other (n : N) (k k' : string) (v : value) (o : Part) :
  k <> k' -> obj_get k (obj_set_index n k' v o) = obj_get k o.
Proof.
  intros Hne.
  assert (Hkk : String.eqb k k' = false) by now apply String.eqb_neq.
  induction o as [|[k0 v0] r IH]; cbn [obj_set_index obj_get].
  - now rewrite Hkk.
  - destruct (String.eqb_spec k' k0) as [->|Hk0].
    + cbn [obj_get]. now rewrite Hkk.
    + destruct (array_index k0) as [n0|].
      * destruct (n <? n0)%N; cbn [obj_get].
        -- now rewrite Hkk.
        -- destruct (String.eqb k k0); [reflexivity | exact IH].
      * cbn [obj_get]. now rewrite Hkk.
Qed.

Lemma obj_get_set_own_same (k : string) (v : value) (o : Part) :
  obj_get k (set_own k v o) = Some v.
Proof.
  unfold set_own. destruct (array_index k);
    [apply obj_get_set_index_same | apply obj_get_set_name_same].
Qed.

Lemma obj_get_set_own_other (k k' : string) (v : value) (o : Part) :
  k <> k' -> obj_get k (set_own k' v o) = obj_get k o.
Proof.
  intros Hne. unfold set_own. destruct (array_index k');
    [now apply obj_get_set_index_other | now apply obj_get_set_name_other].
Qed.

(** The own keys after an assignment: as they were, or with the key set. *)
Lemma own_obj_set (k : string) (v : value) (o : object) :
  own (obj_set k v o) = own o \/ own (obj_set k v o) = set_own k v (own o).
Proof.
  unfold obj_set.
  destruct (String.eqb k "__proto__" && negb (null_prototype o)).
  - left. now destruct v.
  - now right.
Qed.

(** Reading back a key that was just set, [__proto__] apart. *)
Lemma obj_get_set_same (k : string) (v : value) (o : object) :
  k <> "__proto__" -> obj_get k (own (obj_set k v o)) = Some v.
Proof.
  intros Hk. unfold obj_set.
  destruct (String.eqb_spec k "__proto__"); [contradiction|].
  cbn [andb own]. apply obj_get_set_own_same.
Qed.

Lemma obj_get_set_other (k k' : string) (v : value) (o : object) :
  k <> k' -> obj_get k (own (obj_set k' v o)) = obj_get k (own o).
Proof.
  intros Hne. destruct (own_obj_set k' v o) as [->| ->]; [reflexivity|].
  now apply obj_get_set_own_other.
Qed.

Lemma has_key_set (k k' : string) (v : value) (o : object) :
  has_key k (own o) -> has_key k (own (obj_set k' v o)).
Proof.
  intros [w Hw]. destruct (own_obj_set k' v o) as [->| ->]; [now exists w|].
  destruct (String.eqb_spec k k') as [->|Hne].
  - exists v. apply obj_get_set_own_same.
  - exists w. now rewrite obj_get_set_own_other.
Qed.

(** ** One attribute cell *)

Lemma bind_ext {A B} (m : M A) (k k' : A -> M B) :
  (forall a, k a = k' a) -> bind m k = bind m k'.
Proof.
  intros H. destruct m as [t [a|e]]; simpl; [now rewrite H | reflexivity].
Qed.

Section Pipeline.

Variable map : string -> option (string -> option (string * string)).
Variable inherited : string -> string -> inherited_prop.
Variable customSerializers :
  string -> option (string -> option (string -> res value)).
Variable genericSerialize : string -> string -> res value.
Variable serializeNumber : string -> res value.
Variable schedule : list nat.

Local Abbreviation serialize_spec :=
  (serialize_spec map inherited customSerializers genericSerialize).
Local Abbreviation specs_loop :=
  (specs_loop map inherited customSerializers genericSerialize).
Local Abbreviation serialize_product :=
  (serialize_product map inherited customSerializers genericSerialize serializeNumber).
Local Abbreviation process_product :=
  (process_product map inherited customSerializers genericSerialize serializeNumber).
Local Abbreviation items_loop :=
  (items_loop map inherited customSerializers genericSerialize serializeNumber).
Local Abbreviation scrape_page :=
  (scrape_page map inherited customSerializers genericSerialize serializeNumber).
Local Abbreviation pages_loop :=
  (pages_loop map inherited customSerializers genericSerialize serializeNumber).
Local Abbreviation scrape :=
  (scrape map inherited customSerializers genericSerialize serializeNumber).
Local Abbreviation try_block :=
  (try_block map inherited customSerializers genericSerialize serializeNumber).
Local Abbreviation task :=
  (task map inherited customSerializers genericSerialize serializeNumber).
Local Abbreviation scrapeInParallel :=
  (scrapeInParallel map inherited customSerializers genericSerialize serializeNumber).
Local Abbreviation main :=
  (main map inherited customSerializers genericSerialize serializeNumber
     schedule).

Lemma specs_loop_app endpoint (pre post : list Spec) (serialized : object) :
  specs_loop endpoint (pre ++ post) serialized =
  (serialized' <- specs_loop endpoint pre serialized ;;
   specs_loop endpoint post serialized').
Proof.
  revert serialized. induction pre as [|sp pre IH]; intros serialized.
  - symmetry. apply bind_ret_l.
  - cbn [specs_loop app]. rewrite bind_assoc. apply bind_ext.
    intros a. apply IH.
Qed.

Local Abbreviation map_lookup := (map_lookup map inherited).
Local Abbreviation mapped_field := (mapped_field map).
Local Abbreviation field_reserved := (field_reserved map).

(** *** The lookup in the table *)

Lemma map_lookup_trace endpoint specName :
  fst (map_lookup endpoint specName) = [].
Proof.
  unfold map_lookup.
  destruct (map endpoint) as [section|].
  - destruct (section specName); [reflexivity|].
    destruct (inherited_member specName); reflexivity.
  - destruct (inherited_member endpoint); [|reflexivity].
    destruct (inherited endpoint specName); reflexivity.
Qed.

Lemma map_lookup_own endpoint section specName mapped :
  map endpoint = Some section ->
  section specName = Some mapped ->
  map_lookup endpoint specName = ret (Some mapped).
Proof. intros Hmap Hsec. unfold map_lookup. now rewrite Hmap, Hsec. Qed.

Lemma map_lookup_unknown endpoint section specName :
  map endpoint = Some section ->
  section specName = None ->
  inherited_member specName = false ->
  map_lookup endpoint specName = ret None.
Proof.
  intros Hmap Hsec Hinh. unfold map_lookup. now rewrite Hmap, Hsec, Hinh.
Qed.

Lemma map_lookup_inherited endpoint section specName :
  map endpoint = Some section ->
  section specName = None ->
  inherited_member specName = true ->
  map_lookup endpoint specName = throw not_iterable.
Proof.
  intros Hmap Hsec Hinh. unfold map_lookup. now rewrite Hmap, Hsec, Hinh.
Qed.

(** A pair the lookup gives is an entry of the section of the category, or
    is made of the first two characters of an inherited name. *)
Lemma map_lookup_field endpoint specName field kind :
  snd (map_lookup endpoint specName) = Ok (Some (field, kind)) ->
  mapped_field endpoint field
  \/ (String.length field = 1 /\ String.length kind = 1).
Proof.
  unfold map_lookup.
  destruct (map endpoint) as [section|] eqn:Hmap.
  - destruct (section specName) as [[f k]|] eqn:Hsec.
    + intros H. injection H as <- <-. left. now exists section, specName, k.
    + destruct (inherited_member specName); discriminate.
  - destruct (inherited_member endpoint); [|discriminate].
    destruct (inherited endpoint specName) as [|a b|e]; try discriminate.
    intros H. injection H as <- <-. now right.
Qed.

(** What a cell does once its label is read and looked up. *)
Lemma serialize_spec_looked_up endpoint spec l serialized :
  specLabel spec = Ok l ->
  serialize_spec endpoint spec serialized =
  (mapped <- map_lookup endpoint (trim l) ;;
   match mapped with
   | None =>
       console Warn ("Unknown spec '" ++ trim l ++ "' for endpoint '"
                     ++ endpoint ++ "'. Skipping...") ;;
       ret serialized
   | Some (snakeSpecName, mappedSpecSerializationType) =>
       specValue <- lift (specText spec) ;;
       if is_blank specValue then
         ret (obj_set snakeSpecName VNull serialized)
       else
         let text := match specValue with Some s => s | None => "" end in
         if String.eqb mappedSpecSerializationType "custom" then
           match custom_lookup customSerializers endpoint snakeSpecName with
           | Some customSerializer =>
               v <- call_custom endpoint snakeSpecName customSerializer text ;;
               ret (obj_set snakeSpecName v serialized)
           | None =>
               console Warn ("No custom serializer found for '"
                             ++ snakeSpecName ++ "' in endpoint '"
                             ++ endpoint ++ "'.") ;;
               ret (obj_set snakeSpecName VNull serialized)
           end
         else
           v <- call_genericSerialize genericSerialize text
                  mappedSpecSerializationType ;;
           ret (obj_set snakeSpecName v serialized)
   end).
Proof.
  intros Hl. unfold serialize_spec. rewrite Hl.
  change (lift (Ok l)) with (ret l). now rewrite bind_ret_l.
Qed.

Lemma serialize_spec_unknown endpoint section spec l serialized :
  map endpoint = Some section ->
  specLabel spec = Ok l ->
  section (trim l) = None ->
  inherited_member (trim l) = false ->
  serialize_spec endpoint spec serialized =
  ([unknown_spec_warning endpoint (trim l)], Ok serialized).
Proof.
  intros Hmap Hl Hnone Hinh.
  rewrite (serialize_spec_looked_up endpoint spec l serialized Hl).
  rewrite (map_lookup_unknown endpoint section (trim l) Hmap Hnone Hinh).
  reflexivity.
Qed.

(** A label that the section lacks and [Object.prototype] answers to: the
    lookup gives the inherited member, the destructuring throws, and the
    cell ends the processing of its row. *)
Lemma serialize_spec_inherited_label endpoint section spec l serialized :
  map endpoint = Some section ->
  specLabel spec = Ok l ->
  section (trim l) = None ->
  inherited_member (trim l) = true ->
  serialize_spec endpoint spec serialized = ([], Threw not_iterable).
Proof.
  intros Hmap Hl Hnone Hinh.
  rewrite (serialize_spec_looked_up endpoint spec l serialized Hl).
  rewrite (map_lookup_inherited endpoint section (trim l) Hmap Hnone Hinh).
  reflexivity.
Qed.

(** X20. An attribute whose raw label, trimmed, has no entry in the section
    of its category and is not the name of a member of [Object.prototype]:
    the cell prints the warning and hands the record on unchanged, without
    throwing; in the loop over the cells of a row, the cells before it run,
    the warning is printed, and the cells after it run on the record as the
    cells before left it; the record that comes out is the one the row
    gives without that cell, so no field stands for the attribute. *)
Theorem unknown_label_skipped endpoint section pre spec post l serialized :
  map endpoint = Some section ->
  specLabel spec = Ok l ->
  section (trim l) = None ->
  inherited_member (trim l) = false ->
  serialize_spec endpoint spec serialized =
    ([unknown_spec_warning endpoint (trim l)], Ok serialized)
  /\ specs_loop endpoint (pre ++ spec :: post) serialized =
       (serialized' <- specs_loop endpoint pre serialized ;;
        emit (unknown_spec_warning endpoint (trim l)) ;;
        specs_loop endpoint post serialized')
  /\ snd (specs_loop endpoint (pre ++ spec :: post) serialized) =
     snd (specs_loop endpoint (pre ++ post) serialized).
Proof.
  intros Hmap Hl Hnone Hinh.
  pose proof (serialize_spec_unknown endpoint section spec l) as Hcell.
  assert (Hloop : specs_loop endpoint (pre ++ spec :: post) serialized =
       (serialized' <- specs_loop endpoint pre serialized ;;
        emit (unknown_spec_warning endpoint (trim l)) ;;
        specs_loop endpoint post serialized')).
  { rewrite specs_loop_app. apply bind_ext. intros a.
    cbn [specs_loop]. rewrite (Hcell a Hmap Hl Hnone Hinh).
    reflexivity. }
  split; [now apply Hcell|]. split; [exact Hloop|].
  rewrite Hloop, specs_loop_app, !snd_bind.
  destruct (snd (specs_loop endpoint pre serialized)) as [a|e]; [|reflexivity].
  now rewrite snd_bind.
Qed.

Local Abbreviation kept := (kept map inherited customSerializers genericSerialize serializeNumber).
Local Abbreviation dropped := (dropped map inherited customSerializers genericSerialize serializeNumber).
Local Abbreviation page_batch :=
  (page_batch map inherited customSerializers genericSerialize serializeNumber).
Local Abbreviation name_reserved := (name_reserved map).

Lemma is_blank_spec (specValue : option string) :
  specValue = None \/ (exists s, specValue = Some s /\ all_ws s = true) ->
  is_blank specValue = true.
Proof.
  intros [->|[s [-> Hs]]]; simpl; [reflexivity|].
  now rewrite trim_all_ws.
Qed.

Lemma serialize_spec_blank endpoint section spec l field kind specValue serialized :
  map endpoint = Some section ->
  specLabel spec = Ok l ->
  section (trim l) = Some (field, kind) ->
  specText spec = Ok specValue ->
  is_blank specValue = true ->
  serialize_spec endpoint spec serialized =
  ([], Ok (obj_set field VNull serialized)).
Proof.
  intros Hmap Hl Hsome Htext Hblank.
  rewrite (serialize_spec_looked_up endpoint spec l serialized Hl).
  rewrite (map_lookup_own endpoint section (trim l) _ Hmap Hsome).
  rewrite bind_ret_l, Htext. cbn [bind lift fst snd app].
  rewrite Hblank. reflexivity.
Qed.

(** C10. A mapped attribute whose raw value is missing, empty or made of
    white space and line terminators only, which is what the test of the
    code, [specValue == null || specValue.trim() === ''], holds of: the cell
    sets the field to null and does nothing else, whatever the serialization
    kind of the mapping; its trace is empty, so neither the generic
    serializer nor a custom one is called and nothing is printed. The field
    then reads null, the field [__proto__] apart, which an assignment never
    creates. *)
Theorem C10_blank_value_null_without_serializer
    endpoint section spec l field kind specValue serialized :
  map endpoint = Some section ->
  specLabel spec = Ok l ->
  section (trim l) = Some (field, kind) ->
  specText spec = Ok specValue ->
  specValue = None \/ (exists s, specValue = Some s /\ all_ws s = true) ->
  is_blank specValue = true
  /\ serialize_spec endpoint spec serialized =
     ([], Ok (obj_set field VNull serialized))
  /\ serializer_calls (fst (serialize_spec endpoint spec serialized)) = []
  /\ (field <> "__proto__" ->
      obj_get field (own (obj_set field VNull serialized)) = Some VNull).
Proof.
  intros Hmap Hl Hsome Htext Hblank.
  apply is_blank_spec in Hblank. split; [exact Hblank|].
  rewrite (serialize_spec_blank endpoint section spec l field kind specValue
             serialized Hmap Hl Hsome Htext Hblank).
  repeat split. intros Hp. now apply obj_get_set_same.
Qed.

(** C8, as the code has it. A mapping tagged [custom] whose field has no
    entry in the registry: the cell sets the field to null and never
    throws; the warning about the missing serializer is printed when the
    raw value is not blank, and nothing is printed when it is blank, the
    blank test coming first. *)
Theorem C8_missing_custom_serializer
    endpoint section spec l field specValue serialized :
  map endpoint = Some section ->
  specLabel spec = Ok l ->
  section (trim l) = Some (field, "custom") ->
  custom_lookup customSerializers endpoint field = None ->
  specText spec = Ok specValue ->
  serialize_spec endpoint spec serialized =
    ((if is_blank specValue then []
      else [missing_custom_warning endpoint field]),
     Ok (obj_set field VNull serialized)).
Proof.
  intros Hmap Hl Hsome Hreg Htext.
  destruct (is_blank specValue) eqn:Hblank.
  - now apply (serialize_spec_blank endpoint section spec l field "custom"
                 specValue).
  - rewrite (serialize_spec_looked_up endpoint spec l serialized Hl).
    rewrite (map_lookup_own endpoint section (trim l) _ Hmap Hsome).
    rewrite bind_ret_l, Htext. cbn [bind lift fst snd app].
    rewrite Hblank, String.eqb_refl, Hreg. reflexivity.
Qed.


(** ** The events of each part of the generator *)

Ltac trace_events :=
  repeat first
    [ apply Forall_nil
    | apply Forall_cons; [reflexivity|]
    | apply Forall_bind; [|intros ? ?]
    | apply Forall_try_catch; [|intros ? ?]
    | match goal with
      | |- Forall _ (fst (match ?x with _ => _ end)) => destruct x eqn:?
      end
    | progress simpl fst ].

Lemma serialize_spec_events endpoint spec serialized :
  Forall (fun ev => serializer_event ev = true)
    (fst (serialize_spec endpoint spec serialized)).
Proof.
  unfold serialize_spec, map_lookup, call_custom, call_genericSerialize,
    console, emit, lift, ret, throw.
  trace_events.
Qed.

Lemma specs_loop_events endpoint specs serialized :
  Forall (fun ev => serializer_event ev = true)
    (fst (specs_loop endpoint specs serialized)).
Proof.
  revert serialized. induction specs as [|spec rest IH]; intros serialized.
  - constructor.
  - cbn [specs_loop]. apply Forall_bind; [apply serialize_spec_events|].
    intros a _. apply IH.
Qed.

Lemma serialize_product_events endpoint productEl :
  Forall (fun ev => serializer_event ev = true)
    (fst (serialize_product endpoint productEl)).
Proof.
  unfold serialize_product, serialize_price, call_serializeNumber, emit, lift.
  trace_events; apply specs_loop_events.
Qed.

Lemma serializer_event_item ev : serializer_event ev = true -> item_event ev = true.
Proof. destruct ev as [[]| | | | | | | | | | |]; simpl; congruence. Qed.

Lemma item_event_generator ev : item_event ev = true -> generator_event ev = true.
Proof. destruct ev; simpl; congruence. Qed.

Lemma serializer_events_no_error (t : trace) :
  Forall (fun ev => serializer_event ev = true) t -> error_lines t = [].
Proof.
  induction 1 as [|ev t Hev _ IH]; [reflexivity|].
  simpl. rewrite IH. destruct ev as [[]| | | | | | | | | | |]; simpl in *;
    congruence.
Qed.

Lemma item_events_no_yield (t : trace) :
  Forall (fun ev => item_event ev = true) t -> yields t = [] /\ gotos t = [].
Proof.
  induction 1 as [|ev t Hev _ [IHy IHg]]; [now split|].
  unfold yields, gotos in *. simpl. rewrite IHy, IHg.
  destruct ev; simpl in *; try discriminate; now split.
Qed.

Lemma generator_events_no_write (t : trace) :
  Forall (fun ev => generator_event ev = true) t ->
  writes t = [] /\ queued t = [].
Proof.
  induction 1 as [|ev t Hev _ [IHw IHq]]; [now split|].
  unfold writes, queued in *. simpl. rewrite IHw, IHq.
  destruct ev; simpl in *; try discriminate; now split.
Qed.

Lemma process_product_events endpoint productEl pageProducts :
  Forall (fun ev => item_event ev = true)
    (fst (process_product endpoint productEl pageProducts)).
Proof.
  unfold process_product.
  apply Forall_try_catch.
  - apply Forall_bind; [|intros; constructor].
    eapply Forall_impl; [|apply serialize_product_events].
    apply serializer_event_item.
  - intros e _. unfold console, emit. trace_events.
Qed.

Lemma items_loop_events limit endpoint productEls pageProducts :
  Forall (fun ev => item_event ev = true)
    (fst (items_loop limit endpoint productEls pageProducts)).
Proof.
  revert pageProducts.
  induction productEls as [|productEl rest IH]; intros pageProducts.
  - constructor.
  - cbn [items_loop]. apply Forall_bind; [apply process_product_events|].
    intros a _. destruct (length_ge (List.length a) limit).
    + unfold console, emit. trace_events.
    + apply IH.
Qed.


(** ** The rows of one page *)

Lemma error_lines_app (t t' : trace) :
  error_lines (t ++ t') = error_lines t ++ error_lines t'.
Proof. apply flat_map_app. Qed.

Lemma process_product_spec endpoint productEl pageProducts :
  snd (process_product endpoint productEl pageProducts) =
    Ok (pageProducts ++ kept endpoint productEl)
  /\ error_lines (fst (process_product endpoint productEl pageProducts)) =
     dropped endpoint productEl.
Proof.
  pose proof (serialize_product_events endpoint productEl) as Hev.
  apply serializer_events_no_error in Hev.
  unfold process_product, kept, dropped.
  destruct (serialize_product endpoint productEl) as [t [s|e]]; simpl in *.
  - rewrite app_nil_r. now split.
  - rewrite app_nil_r, error_lines_app, Hev. now split.
Qed.

(** The item loop never throws. It works through a prefix of the rows: the
    batch gains the records of the rows of the prefix that go through, one
    error line is printed for each row of the prefix that throws, and the
    prefix is shorter than the page only when the cap test holds on the
    batch. *)
Lemma items_loop_prefix limit endpoint productEls pageProducts :
  exists n,
    n <= List.length productEls
    /\ snd (items_loop limit endpoint productEls pageProducts) =
       Ok (pageProducts ++ flat_map (kept endpoint) (firstn n productEls))
    /\ error_lines (fst (items_loop limit endpoint productEls pageProducts)) =
       flat_map (dropped endpoint) (firstn n productEls)
    /\ (n < List.length productEls ->
        length_ge
          (List.length
             (pageProducts ++ flat_map (kept endpoint) (firstn n productEls)))
          limit = true).
Proof.
  revert pageProducts.
  induction productEls as [|productEl rest IH]; intros pageProducts.
  - exists 0. simpl. rewrite app_nil_r. repeat split; [lia|lia].
  - destruct (process_product_spec endpoint productEl pageProducts)
      as [Hres Herr].
    cbn [items_loop]. rewrite fst_bind, snd_bind, Hres, error_lines_app, Herr.
    destruct (length_ge (List.length (pageProducts ++ kept endpoint productEl))
                limit) eqn:Hcap.
    + exists 1. cbn [firstn flat_map]. rewrite !app_nil_r.
      simpl. repeat split; [lia | intros _; exact Hcap].
    + destruct (IH (pageProducts ++ kept endpoint productEl))
        as [n [Hn [Hsnd [Herrs Hstop]]]].
      exists (S n). cbn [firstn flat_map List.length].
      rewrite app_assoc, Hsnd, Herrs.
      repeat split; [lia|]. intros Hlt. apply Hstop. lia.
Qed.

(** Without a cap the item loop works through the whole page. *)
Lemma items_loop_unbounded endpoint productEls pageProducts :
  snd (items_loop JInfinity endpoint productEls pageProducts) =
    Ok (pageProducts ++ flat_map (kept endpoint) productEls)
  /\ error_lines (fst (items_loop JInfinity endpoint productEls pageProducts)) =
     flat_map (dropped endpoint) productEls.
Proof.
  destruct (items_loop_prefix JInfinity endpoint productEls pageProducts)
    as [n [Hn [Hsnd [Herrs Hstop]]]].
  assert (n = List.length productEls) as ->.
  { destruct (Nat.eq_dec n (List.length productEls)) as [|Hne]; [assumption|].
    assert (Hlt : n < List.length productEls) by lia.
    apply Hstop in Hlt. discriminate. }
  rewrite firstn_all in Hsnd, Herrs. now split.
Qed.


(** ** The pages of one category *)

Lemma yields_app (t t' : trace) : yields (t ++ t') = yields t ++ yields t'.
Proof. apply flat_map_app. Qed.

Lemma gotos_app (t t' : trace) : gotos (t ++ t') = gotos t ++ gotos t'.
Proof. apply flat_map_app. Qed.

Lemma items_loop_returns limit endpoint productEls pageProducts :
  exists t b, items_loop limit endpoint productEls pageProducts = (t, Ok b)
              /\ yields t = [] /\ gotos t = [].
Proof.
  destruct (items_loop_prefix limit endpoint productEls pageProducts)
    as [n [_ [Hsnd _]]].
  pose proof (items_loop_events limit endpoint productEls pageProducts) as Hev.
  apply item_events_no_yield in Hev.
  destruct (items_loop limit endpoint productEls pageProducts) as [t r].
  simpl in *. subst r. eauto.
Qed.

(** A page that loads: the turn of the page loop asks for the page when it
    is not the first, and yields the batch of its rows. *)
Lemma scrape_page_loaded site limit endpoint numPages currentPage productEls :
  listing site endpoint currentPage = Ok productEls ->
  snd (scrape_page site limit endpoint numPages currentPage) =
    Ok (page_batch site limit endpoint currentPage)
  /\ yields (fst (scrape_page site limit endpoint numPages currentPage)) =
     [page_batch site limit endpoint currentPage]
  /\ gotos (fst (scrape_page site limit endpoint numPages currentPage)) =
     (if 1 <? currentPage then [page_url endpoint currentPage] else []).
Proof.
  intros Hload.
  unfold page_batch, rows, scrape_page. rewrite Hload.
  destruct (items_loop_returns limit endpoint productEls [])
    as [t [b [Hrun [Hy Hg]]]].
  rewrite Hrun.
  unfold yields, gotos in *.
  destruct (1 <? currentPage);
    cbn [bind emit ret lift console fst snd app]; rewrite Hrun;
    cbn [bind emit ret lift console fst snd app flat_map];
    rewrite !flat_map_app, Hy, Hg; repeat split.
Qed.

(** A page that does not load ends the generator: nothing is yielded. *)
Lemma scrape_page_failed site limit endpoint numPages currentPage e :
  listing site endpoint currentPage = Threw e ->
  snd (scrape_page site limit endpoint numPages currentPage) = Threw e
  /\ yields (fst (scrape_page site limit endpoint numPages currentPage)) = [].
Proof.
  intros Hload. unfold scrape_page. rewrite Hload.
  destruct (1 <? currentPage); simpl; now split.
Qed.

(** The page loop over pages that all load never throws. It visits the
    pages in order, one batch each, and stops before the last page only
    after a batch on which the cap test holds. *)
Lemma pages_loop_spec site limit endpoint numPages remaining currentPage :
  (forall p, currentPage <= p < currentPage + remaining ->
             exists productEls, listing site endpoint p = Ok productEls) ->
  exists m,
    m <= remaining
    /\ snd (pages_loop site limit endpoint numPages remaining currentPage) = Ok tt
    /\ yields (fst (pages_loop site limit endpoint numPages remaining currentPage)) =
       List.map (page_batch site limit endpoint) (seq currentPage m)
    /\ gotos (fst (pages_loop site limit endpoint numPages remaining currentPage)) =
       List.map (page_url endpoint) (filter (fun p => 1 <? p) (seq currentPage m))
    /\ (m < remaining ->
        0 < m /\
        length_ge
          (List.length (page_batch site limit endpoint (currentPage + m - 1)))
          limit = true).
Proof.
  revert currentPage.
  induction remaining as [|remaining IH]; intros currentPage Hall.
  - exists 0. simpl. repeat split; lia.
  - destruct (Hall currentPage ltac:(lia)) as [productEls Hload].
    destruct (scrape_page_loaded site limit endpoint numPages currentPage
                productEls Hload) as [Hres [Hy Hg]].
    cbn [pages_loop]. rewrite fst_bind, snd_bind, Hres, yields_app, gotos_app, Hy, Hg.
    destruct (length_ge (List.length (page_batch site limit endpoint currentPage))
                limit) eqn:Hcap.
    + exists 1. cbn [seq List.map filter].
      split; [lia|]. split; [reflexivity|]. split; [reflexivity|]. split.
      * destruct (1 <? currentPage); reflexivity.
      * intros _. split; [lia|].
        replace (currentPage + 1 - 1) with currentPage by lia. exact Hcap.
    + destruct (IH (S currentPage)) as [m [Hm [Hsnd [Hys [Hgs Hstop]]]]].
      { intros p Hp. apply Hall. lia. }
      exists (S m). rewrite Hsnd, Hys, Hgs. cbn [seq List.map filter].
      split; [lia|]. split; [reflexivity|]. split; [reflexivity|]. split.
      * destruct (1 <? currentPage); reflexivity.
      * intros Hlt. destruct Hstop as [Hpos Hc]; [lia|]. split; [lia|].
        replace (currentPage + S m - 1) with (S currentPage + m - 1) by lia.
        exact Hc.
Qed.


Lemma scrape_no_pagination site limit endpoint e :
  pagination site endpoint = Threw e ->
  scrape site limit endpoint =
    ([Console Log ("Starting to scrape endpoint: " ++ endpoint);
      RequestInterception; Goto (BASE_URL ++ "/" ++ endpoint)], Threw e).
Proof.
  intros Hpag. unfold scrape, getNumPages. rewrite Hpag. reflexivity.
Qed.

Lemma scrape_paginated site limit endpoint text :
  pagination site endpoint = Ok text ->
  let numPages := parseInt text in
  let loop := pages_loop site limit endpoint numPages (pages_count numPages) 1 in
  snd (scrape site limit endpoint) = snd loop
  /\ yields (fst (scrape site limit endpoint)) = yields (fst loop)
  /\ gotos (fst (scrape site limit endpoint)) =
     (BASE_URL ++ "/" ++ endpoint)%string :: gotos (fst loop).
Proof.
  intros Hpag numPages loop.
  unfold scrape, getNumPages. rewrite Hpag.
  cbn [bind emit ret lift console fst snd app]. fold numPages. fold loop.
  destruct loop as [t [[]|e]]; unfold yields, gotos;
    cbn [bind emit ret lift console fst snd app flat_map];
    rewrite ?flat_map_app; cbn [flat_map]; rewrite ?app_nil_r; repeat split.
Qed.

Lemma getNumPages_events site endpoint :
  Forall (fun ev => generator_event ev = true) (fst (getNumPages site endpoint)).
Proof. unfold getNumPages, emit, lift. trace_events. Qed.

Lemma items_loop_generator_events limit endpoint productEls pageProducts :
  Forall (fun ev => generator_event ev = true)
    (fst (items_loop limit endpoint productEls pageProducts)).
Proof.
  eapply Forall_impl; [|apply items_loop_events]. apply item_event_generator.
Qed.

Lemma scrape_page_events site limit endpoint numPages currentPage :
  Forall (fun ev => generator_event ev = true)
    (fst (scrape_page site limit endpoint numPages currentPage)).
Proof.
  unfold scrape_page, console, emit, lift.
  trace_events; apply items_loop_generator_events.
Qed.

Lemma pages_loop_events site limit endpoint numPages remaining currentPage :
  Forall (fun ev => generator_event ev = true)
    (fst (pages_loop site limit endpoint numPages remaining currentPage)).
Proof.
  revert currentPage. induction remaining as [|remaining IH]; intros currentPage.
  - constructor.
  - cbn [pages_loop]. apply Forall_bind; [apply scrape_page_events|].
    intros a _. destruct (length_ge (List.length a) limit); [constructor|apply IH].
Qed.

Lemma scrape_events site limit endpoint :
  Forall (fun ev => generator_event ev = true) (fst (scrape site limit endpoint)).
Proof.
  unfold scrape, console.
  apply Forall_bind; [unfold emit; trace_events|]. intros _ _.
  apply Forall_bind; [unfold emit; trace_events|]. intros _ _.
  apply Forall_bind; [apply getNumPages_events|]. intros numPages _.
  apply Forall_bind; [unfold emit; trace_events|]. intros _ _.
  apply Forall_bind; [apply pages_loop_events|]. intros _ _.
  unfold emit; trace_events.
Qed.

(** Whatever the site does, a yielded batch is the batch of one of its pages. *)
Lemma pages_loop_yields_in site limit endpoint numPages remaining currentPage batch :
  In batch (yields (fst (pages_loop site limit endpoint numPages remaining currentPage))) ->
  exists p, batch = page_batch site limit endpoint p.
Proof.
  revert currentPage. induction remaining as [|remaining IH]; intros currentPage.
  - intros [].
  - cbn [pages_loop]. rewrite fst_bind, yields_app. intros Hin.
    apply in_app_or in Hin.
    destruct (listing site endpoint currentPage) as [productEls|e] eqn:Hload.
    + destruct (scrape_page_loaded site limit endpoint numPages currentPage
                  productEls Hload) as [Hres [Hy _]].
      rewrite Hy, Hres in Hin. destruct Hin as [[<-|[]]|Hin]; [eauto|].
      destruct (length_ge _ limit); [destruct Hin | eauto].
    + destruct (scrape_page_failed site limit endpoint numPages currentPage
                  e Hload) as [Hres Hy].
      rewrite Hy, Hres in Hin. destruct Hin as [[]|[]].
Qed.

Lemma scrape_yields_in site limit endpoint batch :
  In batch (yields (fst (scrape site limit endpoint))) ->
  exists p, batch = page_batch site limit endpoint p.
Proof.
  destruct (pagination site endpoint) as [text|e] eqn:Hpag.
  - destruct (scrape_paginated site limit endpoint text Hpag) as [_ [Hy _]].
    rewrite Hy. apply pages_loop_yields_in.
  - rewrite (scrape_no_pagination site limit endpoint e Hpag). intros [].
Qed.


(** ** The fields of a record *)

Lemma named_and_priced_set field v (record : object) :
  field <> "name" ->
  named_and_priced (own record) ->
  named_and_priced (own (obj_set field v record)).
Proof.
  intros Hne [[s Hs] Hp]. split.
  - exists s. rewrite obj_get_set_other; [exact Hs | congruence].
  - now apply has_key_set.
Qed.

(** A cell that goes through hands the record on as it is or after setting
    one field, which is an output field of the section of the category or
    the first character of an inherited name. *)
Lemma serialize_spec_shape endpoint spec serialized serialized' :
  snd (serialize_spec endpoint spec serialized) = Ok serialized' ->
  serialized' = serialized
  \/ exists field v,
       (mapped_field endpoint field \/ String.length field = 1)
       /\ serialized' = obj_set field v serialized.
Proof.
  intros Hrun.
  destruct (specLabel spec) as [l|e] eqn:Hl.
  2:{ unfold serialize_spec in Hrun. rewrite Hl in Hrun. discriminate. }
  rewrite (serialize_spec_looked_up endpoint spec l serialized Hl) in Hrun.
  rewrite snd_bind in Hrun.
  destruct (snd (map_lookup endpoint (trim l))) as [[[field kind]|]|e] eqn:Hlk;
    [| |discriminate].
  - assert (Hf : mapped_field endpoint field \/ String.length field = 1).
    { destruct (map_lookup_field endpoint (trim l) field kind Hlk)
        as [H|[H _]]; auto. }
    rewrite snd_bind in Hrun. cbn [lift snd] in Hrun.
    destruct (specText spec) as [specValue|e]; [|discriminate].
    destruct (is_blank specValue).
    + inversion Hrun. right. eauto.
    + cbn zeta in Hrun. destruct (String.eqb kind "custom").
      * destruct (custom_lookup customSerializers endpoint field) as [f|].
        -- unfold call_custom in Hrun. rewrite !snd_bind in Hrun.
           cbn [emit lift snd] in Hrun.
           destruct (f match specValue with Some s => s | None => "" end)
             as [v|e]; [|discriminate].
           inversion Hrun. right. eauto.
        -- inversion Hrun. right. eauto.
      * unfold call_genericSerialize in Hrun. rewrite !snd_bind in Hrun.
        cbn [emit lift snd] in Hrun.
        destruct (genericSerialize match specValue with Some s => s | None => "" end kind)
          as [v|e]; [|discriminate].
        inversion Hrun. right. eauto.
  - inversion Hrun. now left.
Qed.

Lemma serialize_spec_fields endpoint spec serialized serialized' :
  name_reserved endpoint ->
  snd (serialize_spec endpoint spec serialized) = Ok serialized' ->
  named_and_priced (own serialized) -> named_and_priced (own serialized').
Proof.
  intros Hres Hrun HQ.
  destruct (serialize_spec_shape endpoint spec serialized serialized' Hrun)
    as [->|[field [v [Hf ->]]]]; [exact HQ|].
  apply named_and_priced_set; [|exact HQ].
  destruct Hf as [[section [label [kind [Hmap Hsec]]]]|Hlen].
  - exact (Hres section label field kind Hmap Hsec).
  - intros ->. discriminate.
Qed.

Lemma specs_loop_fields endpoint specs serialized serialized' :
  name_reserved endpoint ->
  snd (specs_loop endpoint specs serialized) = Ok serialized' ->
  named_and_priced (own serialized) -> named_and_priced (own serialized').
Proof.
  intros Hres. revert serialized.
  induction specs as [|spec rest IH]; intros serialized Hrun HQ.
  - inversion Hrun. now subst.
  - cbn [specs_loop] in Hrun. rewrite snd_bind in Hrun.
    destruct (snd (serialize_spec endpoint spec serialized)) as [s1|e] eqn:Hcell;
      [|discriminate].
    eapply IH; [exact Hrun|].
    eapply serialize_spec_fields; eassumption.
Qed.

(** What a row that goes through has read, and the object its cells start
    from and end with. *)
Lemma serialize_product_start endpoint productEl record :
  snd (serialize_product endpoint productEl) = Ok record ->
  exists n pt price specs serialized,
    nameText productEl = Ok n
    /\ priceText productEl = Ok pt
    /\ snd (serialize_price serializeNumber pt) = Ok price
    /\ specEls productEl = Ok specs
    /\ snd (specs_loop endpoint specs
              (obj_set "price" price
                 (obj_set "name" (VStr (replaceAll_newline n)) empty_object)))
       = Ok serialized
    /\ record = own serialized.
Proof.
  intros Hrun. unfold serialize_product in Hrun.
  rewrite snd_bind in Hrun. cbn [lift snd] in Hrun.
  destruct (nameText productEl) as [n|e]; [|discriminate].
  rewrite snd_bind in Hrun. cbn [lift snd] in Hrun.
  destruct (priceText productEl) as [pt|e]; [|discriminate].
  rewrite snd_bind in Hrun.
  destruct (snd (serialize_price serializeNumber pt)) as [price|e] eqn:Hprice;
    [|discriminate].
  rewrite snd_bind in Hrun. cbn [lift snd] in Hrun.
  destruct (specEls productEl) as [specs|e]; [|discriminate].
  rewrite snd_bind in Hrun.
  destruct (snd (specs_loop endpoint specs
              (obj_set "price" price
                 (obj_set "name" (VStr (replaceAll_newline n)) empty_object))))
    as [serialized|e] eqn:Hloop; [|discriminate].
  cbn [ret snd] in Hrun. injection Hrun as <-.
  exists n, pt, price, specs, serialized.
  repeat split; try reflexivity; [exact Hprice | exact Hloop].
Qed.

(** The object the cells of a row start from: [name], then [price]. *)
Lemma initial_object n price :
  own (obj_set "price" price
         (obj_set "name" (VStr (replaceAll_newline n)) empty_object)) =
  [("name", VStr (replaceAll_newline n)); ("price", price)].
Proof. reflexivity. Qed.

Lemma serialize_product_fields endpoint productEl record :
  name_reserved endpoint ->
  snd (serialize_product endpoint productEl) = Ok record ->
  named_and_priced record.
Proof.
  intros Hres Hrun.
  destruct (serialize_product_start endpoint productEl record Hrun)
    as [n [pt [price [specs [serialized [_ [_ [_ [_ [Hloop ->]]]]]]]]]].
  eapply specs_loop_fields; [exact Hres | exact Hloop |].
  rewrite initial_object. split.
  - exists (replaceAll_newline n). reflexivity.
  - exists price. reflexivity.
Qed.

Lemma in_kept endpoint productEl record :
  In record (kept endpoint productEl) ->
  snd (serialize_product endpoint productEl) = Ok record.
Proof.
  unfold kept.
  destruct (snd (serialize_product endpoint productEl)) as [s|e];
    [intros [->|[]]; reflexivity | intros []].
Qed.

Lemma page_batch_kept site limit endpoint p :
  exists n,
    page_batch site limit endpoint p =
    flat_map (kept endpoint) (firstn n (rows site endpoint p)).
Proof.
  unfold page_batch.
  destruct (items_loop_prefix limit endpoint (rows site endpoint p) [])
    as [n [_ [Hsnd _]]].
  exists n. now rewrite Hsnd.
Qed.

(** C9. Every record of every batch the generator yields has a string under
    [name] and a value under [price] (null included), as long as the section
    of the category keeps the field name [name] for the name of the item. *)
Theorem C9_name_and_price_present site limit endpoint batch record :
  name_reserved endpoint ->
  In batch (yields (fst (scrape site limit endpoint))) ->
  In record batch ->
  (exists s, obj_get "name" record = Some (VStr s)) /\ has_key "price" record.
Proof.
  intros Hres Hbatch Hrecord.
  apply scrape_yields_in in Hbatch as [p ->].
  destruct (page_batch_kept site limit endpoint p) as [n Hn].
  rewrite Hn in Hrecord. apply in_flat_map in Hrecord as [productEl [_ Hin]].
  apply in_kept in Hin.
  exact (serialize_product_fields endpoint productEl record Hres Hin).
Qed.


(** ** The task of one category *)

Lemma for_await_spec (t : trace) (allParts : list Part) :
  for_await t allParts =
  (List.map (fun ev => match ev with Yield _ => ProgressIncrement | _ => ev end) t,
   allParts ++ List.concat (yields t)).
Proof.
  revert allParts. induction t as [|ev t IH]; intros allParts.
  - simpl. now rewrite app_nil_r.
  - destruct ev; cbn [for_await]; rewrite IH; try reflexivity.
    unfold yields. cbn [flat_map List.map List.concat app]. now rewrite app_assoc.
Qed.

Lemma for_await_writes (t : trace) (allParts : list Part) :
  Forall (fun ev => generator_event ev = true) t ->
  writes (fst (for_await t allParts)) = [].
Proof.
  rewrite for_await_spec. cbn [fst].
  induction 1 as [|ev t Hev _ IH]; [reflexivity|].
  unfold writes in *. cbn [List.map flat_map]. rewrite IH.
  destruct ev; simpl in *; congruence.
Qed.

Lemma writes_app (t t' : trace) : writes (t ++ t') = writes t ++ writes t'.
Proof. apply flat_map_app. Qed.

Lemma try_block_no_pagination site limit endpoint e :
  pagination site endpoint = Threw e ->
  try_block site limit endpoint =
  (([Goto (BASE_URL ++ "/" ++ endpoint)], Threw e), []).
Proof.
  intros Hpag. unfold try_block, getNumPages. rewrite Hpag. reflexivity.
Qed.

Lemma try_block_paginated site limit endpoint text :
  pagination site endpoint = Ok text ->
  try_block site limit endpoint =
  (((Goto (BASE_URL ++ "/" ++ endpoint) :: ProgressStart (parseInt text)
       :: fst (for_await (fst (scrape site limit endpoint)) []),
     snd (scrape site limit endpoint)) ;; emit ProgressStop),
   List.concat (yields (fst (scrape site limit endpoint)))).
Proof.
  intros Hpag. unfold try_block, getNumPages. rewrite Hpag.
  cbn [bind emit ret lift fst snd app].
  destruct (scrape site limit endpoint) as [t2 r2].
  cbn [fst snd]. rewrite for_await_spec. cbn [fst]. reflexivity.
Qed.

(** What is in [allParts] when the [try] block is left, however it is
    left: the yielded batches, one after the other. *)
Lemma try_block_allParts site limit endpoint :
  snd (try_block site limit endpoint) =
  List.concat (yields (fst (scrape site limit endpoint))).
Proof.
  destruct (pagination site endpoint) as [text|e] eqn:Hpag.
  - now rewrite (try_block_paginated site limit endpoint text Hpag).
  - rewrite (try_block_no_pagination site limit endpoint e Hpag).
    now rewrite (scrape_no_pagination site limit endpoint e Hpag).
Qed.

Lemma try_block_no_write site limit endpoint :
  writes (fst (fst (try_block site limit endpoint))) = [].
Proof.
  destruct (pagination site endpoint) as [text|e] eqn:Hpag.
  - rewrite (try_block_paginated site limit endpoint text Hpag).
    cbn [fst]. rewrite fst_bind. cbn [fst snd]. rewrite writes_app.
    unfold writes at 1. cbn [flat_map app]. fold (writes (fst (for_await (fst (scrape site limit endpoint)) []))).
    rewrite for_await_writes by apply scrape_events.
    destruct (snd (scrape site limit endpoint)); reflexivity.
  - now rewrite (try_block_no_pagination site limit endpoint e Hpag).
Qed.

(** The files a task writes, by the way its [try] block is left. *)
Lemma task_writes site limit endpoint :
  writes (fst (task site limit endpoint)) =
  let allParts := snd (try_block site limit endpoint) in
  match snd (fst (try_block site limit endpoint)) with
  | Ok _ => [(artifact_path endpoint, allParts)]
  | Threw _ =>
      match allParts with
      | [] => []
      | _ :: _ => [(artifact_path (endpoint ++ ".incomplete"), allParts)]
      end
  end.
Proof.
  pose proof (try_block_no_write site limit endpoint) as Hnw.
  unfold task.
  destruct (try_block site limit endpoint) as [[t r] allParts].
  cbn [fst snd] in *.
  destruct r as [[]|error].
  - cbn [bind try_catch ret emit fst snd app].
    rewrite !app_nil_r, writes_app, Hnw. reflexivity.
  - destruct allParts as [|part allParts];
      cbn [bind try_catch ret emit console fst snd app];
      rewrite ?app_nil_r, !writes_app, Hnw; reflexivity.
Qed.

Lemma task_returns site limit endpoint : snd (task site limit endpoint) = Ok tt.
Proof.
  unfold task.
  destruct (try_block site limit endpoint) as [[t [[]|error]] allParts];
    [reflexivity|].
  destruct allParts; reflexivity.
Qed.


(** ** A category whose pages all load *)

Lemma filter_seq_from_2 (s m : nat) :
  2 <= s -> filter (fun p => 1 <? p) (seq s m) = seq s m.
Proof.
  revert s. induction m as [|m IH]; intros s Hs; [reflexivity|].
  cbn [seq filter]. destruct (Nat.ltb_spec 1 s); [|lia].
  now rewrite IH by lia.
Qed.

Lemma filter_seq_from_1 (m : nat) :
  filter (fun p => 1 <? p) (seq 1 m) = seq 2 (m - 1).
Proof.
  destruct m as [|m]; [reflexivity|].
  cbn [seq filter Nat.ltb Nat.leb]. rewrite filter_seq_from_2 by lia.
  now replace (S m - 1) with m by lia.
Qed.

Lemma scrape_pages_load site limit endpoint text :
  pagination site endpoint = Ok text ->
  (forall p, 1 <= p <= pages_count (parseInt text) ->
             exists productEls, listing site endpoint p = Ok productEls) ->
  exists m,
    m <= pages_count (parseInt text)
    /\ snd (scrape site limit endpoint) = Ok tt
    /\ yields (fst (scrape site limit endpoint)) =
       List.map (page_batch site limit endpoint) (seq 1 m)
    /\ gotos (fst (scrape site limit endpoint)) =
       (BASE_URL ++ "/" ++ endpoint)%string
       :: List.map (page_url endpoint) (seq 2 (m - 1))
    /\ (m < pages_count (parseInt text) ->
        0 < m /\
        length_ge (List.length (page_batch site limit endpoint m)) limit = true).
Proof.
  intros Hpag Hall.
  destruct (scrape_paginated site limit endpoint text Hpag) as [Hsnd [Hy Hg]].
  destruct (pages_loop_spec site limit endpoint (parseInt text)
              (pages_count (parseInt text)) 1) as [m [Hm [Hs [Hys [Hgs Hstop]]]]].
  { intros p Hp. apply Hall. lia. }
  exists m. rewrite Hsnd, Hy, Hg, Hs, Hys, Hgs, filter_seq_from_1.
  repeat split; try assumption.
  - apply Hstop in H. lia.
  - apply Hstop in H as [_ Hc]. now replace (1 + m - 1) with m in Hc by lia.
Qed.

(** C5. In a category whose pagination is found and whose pages load, so
    that nothing but the rows themselves can fail: the generator ends
    normally and the task writes the artifact under the plain name of the
    category; the pages are visited in order and the page loop stops early
    only after a batch on which the cap test holds; and on every page the
    item loop never throws, works through a prefix of the rows, puts in the
    batch exactly the records of the rows of the prefix whose processing
    goes through, prints one error line for each row of the prefix whose
    processing throws, and leaves rows of the page unprocessed only when the
    cap test holds on the batch. *)
Theorem C5_item_failure_isolated site limit endpoint text :
  pagination site endpoint = Ok text ->
  (forall p, 1 <= p <= pages_count (parseInt text) ->
             exists productEls, listing site endpoint p = Ok productEls) ->
  snd (scrape site limit endpoint) = Ok tt
  /\ writes (fst (task site limit endpoint)) =
     [(artifact_path endpoint,
       List.concat (yields (fst (scrape site limit endpoint))))]
  /\ (exists m,
        m <= pages_count (parseInt text)
        /\ yields (fst (scrape site limit endpoint)) =
           List.map (page_batch site limit endpoint) (seq 1 m)
        /\ (m < pages_count (parseInt text) ->
            0 < m /\
            length_ge (List.length (page_batch site limit endpoint m)) limit
            = true))
  /\ (forall p,
        exists n,
          n <= List.length (rows site endpoint p)
          /\ snd (items_loop limit endpoint (rows site endpoint p) []) =
             Ok (flat_map (kept endpoint) (firstn n (rows site endpoint p)))
          /\ error_lines (fst (items_loop limit endpoint (rows site endpoint p) [])) =
             flat_map (dropped endpoint) (firstn n (rows site endpoint p))
          /\ (n < List.length (rows site endpoint p) ->
              length_ge (List.length (page_batch site limit endpoint p)) limit
              = true)).
Proof.
  intros Hpag Hall.
  destruct (scrape_pages_load site limit endpoint text Hpag Hall)
    as [m [Hm [Hsnd [Hys [_ Hstop]]]]].
  split; [exact Hsnd|]. split; [|split].
  - rewrite task_writes, try_block_allParts.
    rewrite (try_block_paginated site limit endpoint text Hpag).
    cbn [fst snd]. rewrite snd_bind. cbn [snd]. now rewrite Hsnd.
  - exists m. auto.
  - intros p.
    destruct (items_loop_prefix limit endpoint (rows site endpoint p) [])
      as [n [Hn [Hres [Herr Hcap]]]].
    exists n. unfold page_batch. rewrite Hres. auto.
Qed.

(** Without a cap, the batch of a page holds the records of all its rows
    that go through. *)
Lemma page_batch_unbounded site endpoint p :
  page_batch site JInfinity endpoint p =
  flat_map (kept endpoint) (rows site endpoint p).
Proof.
  unfold page_batch.
  destruct (items_loop_unbounded endpoint (rows site endpoint p) []) as [Hres _].
  now rewrite Hres.
Qed.

(** C6. A category whose pagination reads [n] and whose [n] pages load,
    scraped without a cap: the generator ends normally after yielding [n]
    batches, the batch of page 1, then of page 2, and so on up to page [n];
    the pages are asked for in that order, the first through the pagination
    lookup; [allParts] ends up as those batches appended in that order, and
    that is what the task writes under the name of the category. *)
Theorem C6_one_batch_per_page_in_order site endpoint text n :
  pagination site endpoint = Ok text ->
  parseInt text = JInt (Z.of_nat n) ->
  (forall p, 1 <= p <= n ->
             exists productEls, listing site endpoint p = Ok productEls) ->
  let batch := fun p => flat_map (kept endpoint) (rows site endpoint p) in
  snd (scrape site JInfinity endpoint) = Ok tt
  /\ yields (fst (scrape site JInfinity endpoint)) = List.map batch (seq 1 n)
  /\ List.length (yields (fst (scrape site JInfinity endpoint))) = n
  /\ gotos (fst (scrape site JInfinity endpoint)) =
     (BASE_URL ++ "/" ++ endpoint)%string
     :: List.map (page_url endpoint) (seq 2 (n - 1))
  /\ snd (try_block site JInfinity endpoint) =
     List.concat (List.map batch (seq 1 n))
  /\ writes (fst (task site JInfinity endpoint)) =
     [(artifact_path endpoint, List.concat (List.map batch (seq 1 n)))].
Proof.
  intros Hpag Hn Hall batch.
  assert (Hcount : pages_count (parseInt text) = n).
  { rewrite Hn. simpl. apply Nat2Z.id. }
  destruct (scrape_pages_load site JInfinity endpoint text Hpag)
    as [m [Hm [Hsnd [Hys [Hgs Hstop]]]]].
  { rewrite Hcount. exact Hall. }
  assert (m = n) as ->.
  { destruct (Nat.eq_dec m n) as [|Hne]; [assumption|].
    destruct Hstop as [_ Hc]; [lia | discriminate]. }
  assert (Hbatches : yields (fst (scrape site JInfinity endpoint)) =
                     List.map batch (seq 1 n)).
  { rewrite Hys. apply map_ext. intros p. apply page_batch_unbounded. }
  split; [exact Hsnd|]. split; [exact Hbatches|]. split; [|split; [exact Hgs|]].
  - now rewrite Hbatches, length_map, length_seq.
  - rewrite task_writes, try_block_allParts, Hbatches.
    rewrite (try_block_paginated site JInfinity endpoint text Hpag).
    cbn [fst snd]. rewrite snd_bind. cbn [snd]. rewrite Hsnd. now split.
Qed.


(** ** A category that ends with a failure *)

Lemma task_reports_failure site limit endpoint error :
  snd (fst (try_block site limit endpoint)) = Threw error ->
  In (abort_warning endpoint error) (fst (task site limit endpoint)).
Proof.
  intros Hthrew. unfold task.
  destruct (try_block site limit endpoint) as [[t r] allParts].
  cbn [fst snd] in Hthrew. subst r.
  destruct allParts as [|part allParts];
    cbn [bind try_catch ret emit console fst snd app];
    rewrite ?app_nil_r; apply in_or_app; [right | left; apply in_or_app; right];
    left; reflexivity.
Qed.


(** ** The initial fetch test *)

Lemma limit_of_cases (inputEndpoints : list string) :
  exists l w,
    limit_of inputEndpoints = (w, Ok l)
    /\ Forall (fun ev => generator_event ev = true) w /\ gotos w = [].
Proof.
  unfold limit_of.
  destruct (indexOf "-n" inputEndpoints) as [i|];
    [|exists JInfinity, []; repeat split; constructor].
  destruct (nth_error inputEndpoints (i + 1)) as [[|c s]|];
    [exists JInfinity, []; repeat split; constructor |
    |exists JInfinity, []; repeat split; constructor].
  destruct (isNaN (parseInt (String c s))); cbn [negb].
  - eexists JInfinity, _. split; [reflexivity|].
    split; [repeat constructor | reflexivity].
  - eexists _, []. repeat split; constructor.
Qed.

Lemma interleave_nil (choices : list nat) : interleave choices [] = [].
Proof. destruct choices; reflexivity. Qed.

Lemma initial_fetch_test_failed site endpoints :
  (exists e, root site = Threw e) \/ (exists e, nav site = Threw e) ->
  exists t,
    fst (initial_fetch_test site endpoints) = Goto "https://pcpartpicker.com" :: t
    /\ Forall (fun ev => item_event ev = true) t.
Proof.
  unfold initial_fetch_test.
  intros [[e He]|[e He]]; rewrite He.
  - exists []. split; [reflexivity | constructor].
  - destruct (root site) as [res|e'].
    + eexists. split; [reflexivity | repeat constructor].
    + exists []. split; [reflexivity | constructor].
Qed.

(** C3, as the code has it. When the initial fetch test fails (the
    navigation to the site root throws or the wait for [nav] does), no
    category is queued, no file is written and no page of any category is
    asked for; [scrapeInParallel] still returns normally, and since the
    script sets no exit code the process ends with code 0. *)
Theorem C3_failed_fetch_test_queues_nothing site inputEndpoints :
  launch site = Ok tt ->
  (exists e, root site = Threw e) \/ (exists e, nav site = Threw e) ->
  let run := main site inputEndpoints in
  queued (fst run) = []
  /\ writes (fst run) = []
  /\ gotos (fst run) = ["https://pcpartpicker.com"]
  /\ exit_code run = 0%Z.
Proof.
  intros Hlaunch Hfail run. subst run. unfold main.
  destruct (limit_of_cases inputEndpoints) as [l [w [Hl [Hw Hg]]]].
  rewrite Hl. unfold scrapeInParallel. rewrite Hlaunch.
  destruct (initial_fetch_test_failed site (endpointsToScrape inputEndpoints)
              Hfail) as [t [Ht Hev]].
  rewrite Ht.
  pose proof (item_events_no_yield t Hev) as [_ Hgt].
  assert (Hgen : Forall (fun ev => generator_event ev = true)
                   (w ++ Goto "https://pcpartpicker.com" :: t)).
  { apply Forall_app. split; [exact Hw|]. constructor; [reflexivity|].
    eapply Forall_impl; [|exact Hev]. apply item_event_generator. }
  apply generator_events_no_write in Hgen as [Hwr Hq].
  assert (Hqt : queued (Goto "https://pcpartpicker.com" :: t) = []).
  { unfold queued in *. rewrite flat_map_app in Hq.
    now apply app_eq_nil in Hq as [_ Hq]. }
  cbn [bind lift fst snd app]. rewrite Hqt. cbn [List.map].
  rewrite interleave_nil, !app_nil_r. repeat split; try assumption.
  rewrite gotos_app, Hg. unfold gotos in *. cbn [flat_map app]. now rewrite Hgt.
Qed.


(** ** The cap *)

Lemma kept_length endpoint productEl : List.length (kept endpoint productEl) <= 1.
Proof.
  unfold kept. destruct (snd (serialize_product endpoint productEl)); simpl; lia.
Qed.

(** With a cap [k] of at least 1, a batch never holds more than [k]
    records: the cap bounds each page. *)
Lemma items_loop_within_cap (k : Z) endpoint productEls pageProducts batch :
  (Z.of_nat (List.length pageProducts) < k)%Z ->
  snd (items_loop (JInt k) endpoint productEls pageProducts) = Ok batch ->
  (Z.of_nat (List.length batch) <= k)%Z.
Proof.
  revert pageProducts.
  induction productEls as [|productEl rest IH]; intros pageProducts Hlt Hrun.
  - inversion Hrun. subst. lia.
  - destruct (process_product_spec endpoint productEl pageProducts) as [Hres _].
    cbn [items_loop] in Hrun. rewrite snd_bind, Hres in Hrun.
    pose proof (kept_length endpoint productEl) as Hk.
    destruct (length_ge _ (JInt k)) eqn:Hcap.
    + rewrite snd_bind in Hrun. inversion Hrun. subst.
      rewrite length_app. lia.
    + apply (IH _ ltac:(simpl in Hcap; apply Z.leb_gt in Hcap; exact Hcap) Hrun).
Qed.

Lemma page_batch_within_cap site (k : Z) endpoint p :
  (1 <= k)%Z ->
  (Z.of_nat (List.length (page_batch site (JInt k) endpoint p)) <= k)%Z.
Proof.
  intros Hk. unfold page_batch.
  destruct (snd (items_loop (JInt k) endpoint (rows site endpoint p) []))
    as [batch|e] eqn:Hrun; [|simpl; lia].
  apply (items_loop_within_cap k endpoint (rows site endpoint p) [] batch);
    [simpl; lia | exact Hrun].
Qed.

(** * Further properties *)

(** ** The cap within one page *)

Lemma items_loop_capped (k : Z) endpoint productEls pageProducts :
  (Z.of_nat (List.length pageProducts) < k)%Z ->
  snd (items_loop (JInt k) endpoint productEls pageProducts) =
  Ok (firstn (Z.to_nat k) (pageProducts ++ flat_map (kept endpoint) productEls)).
Proof.
  revert pageProducts.
  induction productEls as [|productEl rest IH]; intros pageProducts Hlt.
  - simpl. rewrite app_nil_r, firstn_all2 by lia. reflexivity.
  - destruct (process_product_spec endpoint productEl pageProducts) as [Hres _].
    pose proof (kept_length endpoint productEl) as Hk.
    cbn [items_loop flat_map]. rewrite snd_bind, Hres, app_assoc.
    destruct (length_ge _ (JInt k)) eqn:Hcap; simpl in Hcap.
    + apply Z.leb_le in Hcap. rewrite length_app in Hcap.
      rewrite snd_bind. cbn [snd console emit ret].
      rewrite firstn_app.
      replace (Z.to_nat k - List.length (pageProducts ++ kept endpoint productEl))
        with 0 by (rewrite length_app; lia).
      rewrite firstn_all2 by (rewrite length_app; lia).
      cbn [firstn]. now rewrite app_nil_r.
    + apply Z.leb_gt in Hcap. now apply IH.
Qed.

Lemma page_batch_capped site (k : Z) endpoint p :
  (1 <= k)%Z ->
  page_batch site (JInt k) endpoint p =
  firstn (Z.to_nat k) (flat_map (kept endpoint) (rows site endpoint p)).
Proof.
  intros Hk. unfold page_batch.
  rewrite (items_loop_capped k endpoint (rows site endpoint p) [])
    by (simpl; lia).
  reflexivity.
Qed.

(** X3. With a cap [k] of at least 1, the batch of a page is made of the
    first [k] records of the page's rows that go through, or of all of them
    when there are fewer. *)
Theorem page_batch_first_k site (k : Z) endpoint p :
  (1 <= k)%Z ->
  page_batch site (JInt k) endpoint p =
    firstn (Z.to_nat k) (flat_map (kept endpoint) (rows site endpoint p))
  /\ (Z.of_nat (List.length (page_batch site (JInt k) endpoint p)) <= k)%Z.
Proof.
  intros Hk. split; [now apply page_batch_capped | now apply page_batch_within_cap].
Qed.

(** ** Where the page loop stops *)

(** The page loop, when the pages up to the [j]-th after [currentPage] load
    and that one is the first whose batch passes the cap test. *)
Lemma pages_loop_stops site limit endpoint numPages j :
  forall remaining currentPage,
  j < remaining ->
  (forall i, i <= j ->
     exists productEls, listing site endpoint (currentPage + i) = Ok productEls) ->
  (forall i, i < j ->
     length_ge (List.length (page_batch site limit endpoint (currentPage + i)))
       limit = false) ->
  length_ge (List.length (page_batch site limit endpoint (currentPage + j)))
    limit = true ->
  snd (pages_loop site limit endpoint numPages remaining currentPage) = Ok tt
  /\ yields (fst (pages_loop site limit endpoint numPages remaining currentPage)) =
     List.map (page_batch site limit endpoint) (seq currentPage (S j))
  /\ gotos (fst (pages_loop site limit endpoint numPages remaining currentPage)) =
     List.map (page_url endpoint)
       (filter (fun p => 1 <? p) (seq currentPage (S j))).
Proof.
  induction j as [|j IH]; intros remaining currentPage Hlt Hload Hbelow Hcap;
    (destruct remaining as [|remaining]; [lia|]);
    destruct (Hload 0 ltac:(lia)) as [productEls Hl0];
    rewrite Nat.add_0_r in Hl0;
    destruct (scrape_page_loaded site limit endpoint numPages currentPage
                productEls Hl0) as [Hres [Hy Hg]];
    cbn [pages_loop]; rewrite fst_bind, snd_bind, Hres, yields_app, gotos_app, Hy, Hg.
  - rewrite Nat.add_0_r in Hcap. rewrite Hcap. cbn [seq List.map filter].
    split; [reflexivity|]. split; [reflexivity|].
    destruct (1 <? currentPage); reflexivity.
  - specialize (Hbelow 0 ltac:(lia)) as Hb0. rewrite Nat.add_0_r in Hb0.
    rewrite Hb0.
    destruct (IH remaining (S currentPage)) as [Hs [Hys Hgs]].
    + lia.
    + intros i Hi. replace (S currentPage + i) with (currentPage + S i) by lia.
      apply Hload. lia.
    + intros i Hi. replace (S currentPage + i) with (currentPage + S i) by lia.
      apply Hbelow. lia.
    + now replace (S currentPage + j) with (currentPage + S j) by lia.
    + rewrite Hs, Hys, Hgs. cbn [seq List.map filter].
      split; [reflexivity|]. split; [reflexivity|].
      destruct (1 <? currentPage); reflexivity.
Qed.

(** The page loop, when the first [j] pages from [currentPage] load without
    passing the cap test and the next one does not load. *)
Lemma pages_loop_fails site limit endpoint numPages j e :
  forall remaining currentPage,
  j < remaining ->
  (forall i, i < j ->
     exists productEls, listing site endpoint (currentPage + i) = Ok productEls) ->
  (forall i, i < j ->
     length_ge (List.length (page_batch site limit endpoint (currentPage + i)))
       limit = false) ->
  listing site endpoint (currentPage + j) = Threw e ->
  snd (pages_loop site limit endpoint numPages remaining currentPage) = Threw e
  /\ yields (fst (pages_loop site limit endpoint numPages remaining currentPage)) =
     List.map (page_batch site limit endpoint) (seq currentPage j).
Proof.
  induction j as [|j IH]; intros remaining currentPage Hlt Hload Hbelow Hfail;
    (destruct remaining as [|remaining]; [lia|]); cbn [pages_loop];
    rewrite fst_bind, snd_bind, yields_app.
  - rewrite Nat.add_0_r in Hfail.
    destruct (scrape_page_failed site limit endpoint numPages currentPage e Hfail)
      as [Hres Hy].
    rewrite Hres, Hy. now split.
  - destruct (Hload 0 ltac:(lia)) as [productEls Hl0].
    rewrite Nat.add_0_r in Hl0.
    destruct (scrape_page_loaded site limit endpoint numPages currentPage
                productEls Hl0) as [Hres [Hy _]].
    specialize (Hbelow 0 ltac:(lia)) as Hb0. rewrite Nat.add_0_r in Hb0.
    rewrite Hres, Hy, Hb0.
    destruct (IH remaining (S currentPage)) as [Hs Hys].
    + lia.
    + intros i Hi. replace (S currentPage + i) with (currentPage + S i) by lia.
      apply Hload. lia.
    + intros i Hi. replace (S currentPage + i) with (currentPage + S i) by lia.
      apply Hbelow. lia.
    + now replace (S currentPage + j) with (currentPage + S j) by lia.
    + rewrite Hs, Hys. now split.
Qed.


(** ** What a job writes, from what the generator did *)

Lemma try_block_outcome site limit endpoint :
  snd (fst (try_block site limit endpoint)) = snd (scrape site limit endpoint).
Proof.
  destruct (pagination site endpoint) as [text|e] eqn:Hpag.
  - rewrite (try_block_paginated site limit endpoint text Hpag).
    cbn [fst]. rewrite snd_bind. cbn [snd].
    destruct (snd (scrape site limit endpoint)) as [[]|e]; reflexivity.
  - rewrite (try_block_no_pagination site limit endpoint e Hpag).
    now rewrite (scrape_no_pagination site limit endpoint e Hpag).
Qed.

Lemma task_writes_outcome site limit endpoint :
  writes (fst (task site limit endpoint)) =
  match snd (scrape site limit endpoint) with
  | Ok _ =>
      [(artifact_path endpoint,
        List.concat (yields (fst (scrape site limit endpoint))))]
  | Threw _ =>
      match List.concat (yields (fst (scrape site limit endpoint))) with
      | [] => []
      | _ :: _ =>
          [(artifact_path (endpoint ++ ".incomplete"),
            List.concat (yields (fst (scrape site limit endpoint))))]
      end
  end.
Proof.
  rewrite task_writes, try_block_outcome, try_block_allParts. reflexivity.
Qed.

(** X7. A job writes at most one file. When the generator ends normally the
    file is named after the category and holds the yielded batches appended
    in order, even when there are none; when the generator throws, the file
    is marked incomplete and is written only if some record was yielded. *)
Theorem task_writes_by_outcome site limit endpoint :
  let allParts := List.concat (yields (fst (scrape site limit endpoint))) in
  writes (fst (task site limit endpoint)) =
    match snd (scrape site limit endpoint) with
    | Ok _ => [(artifact_path endpoint, allParts)]
    | Threw _ =>
        match allParts with
        | [] => []
        | _ :: _ => [(artifact_path (endpoint ++ ".incomplete"), allParts)]
        end
    end
  /\ List.length (writes (fst (task site limit endpoint))) <= 1.
Proof.
  intros allParts. subst allParts.
  pose proof (task_writes_outcome site limit endpoint) as H.
  split; [exact H|]. rewrite H.
  destruct (snd (scrape site limit endpoint)); [simpl; lia|].
  destruct (List.concat (yields (fst (scrape site limit endpoint)))); simpl; lia.
Qed.

(** X8. A category whose pagination cannot be read: the generator yields
    nothing, the job reports the failure with a warning and writes no file. *)
Theorem no_pagination_no_file site limit endpoint e :
  pagination site endpoint = Threw e ->
  snd (scrape site limit endpoint) = Threw e
  /\ yields (fst (scrape site limit endpoint)) = []
  /\ In (abort_warning endpoint e) (fst (task site limit endpoint))
  /\ writes (fst (task site limit endpoint)) = [].
Proof.
  intros Hpag.
  pose proof (scrape_no_pagination site limit endpoint e Hpag) as Hs.
  split; [now rewrite Hs|]. split; [now rewrite Hs|]. split.
  - apply task_reports_failure. rewrite try_block_outcome. now rewrite Hs.
  - pose proof (task_writes_outcome site limit endpoint) as Hw.
    rewrite Hw, Hs. reflexivity.
Qed.

(** X9. A category whose pagination reads as [NaN], zero or a negative
    number: no turn of the page loop is taken, no listing is queried beyond
    the pagination lookup, and the job writes an empty array under the plain
    name of the category. *)
Theorem no_pages_empty_file site limit endpoint text :
  pagination site endpoint = Ok text ->
  pages_count (parseInt text) = 0 ->
  snd (scrape site limit endpoint) = Ok tt
  /\ yields (fst (scrape site limit endpoint)) = []
  /\ gotos (fst (scrape site limit endpoint)) = [(BASE_URL ++ "/" ++ endpoint)%string]
  /\ writes (fst (task site limit endpoint)) = [(artifact_path endpoint, [])].
Proof.
  intros Hpag Hzero.
  destruct (scrape_paginated site limit endpoint text Hpag) as [Hsnd [Hy Hg]].
  rewrite Hzero in Hsnd, Hy, Hg. cbn [pages_loop ret fst snd] in Hsnd, Hy, Hg.
  split; [exact Hsnd|]. split; [exact Hy|]. split; [exact Hg|].
  pose proof (task_writes_outcome site limit endpoint) as Hw.
  rewrite Hw, Hsnd, Hy. reflexivity.
Qed.

(** X4. When the pages up to page [q] load and page [q] is the first whose
    batch passes the cap test, the generator ends normally right after
    yielding the batch of page [q]: it has yielded the batches of pages 1 to
    [q] in order and asked for no page after [q], whether the later pages
    would load or not. *)
Theorem scrape_stops_at_first_capped_page site limit endpoint text q :
  pagination site endpoint = Ok text ->
  1 <= q <= pages_count (parseInt text) ->
  (forall p, 1 <= p <= q ->
     exists productEls, listing site endpoint p = Ok productEls) ->
  (forall p, 1 <= p < q ->
     length_ge (List.length (page_batch site limit endpoint p)) limit = false) ->
  length_ge (List.length (page_batch site limit endpoint q)) limit = true ->
  snd (scrape site limit endpoint) = Ok tt
  /\ yields (fst (scrape site limit endpoint)) =
     List.map (page_batch site limit endpoint) (seq 1 q)
  /\ gotos (fst (scrape site limit endpoint)) =
     (BASE_URL ++ "/" ++ endpoint)%string
     :: List.map (page_url endpoint) (seq 2 (q - 1)).
Proof.
  intros Hpag Hq Hload Hbelow Hcap.
  destruct (scrape_paginated site limit endpoint text Hpag) as [Hsnd [Hy Hg]].
  destruct (pages_loop_stops site limit endpoint (parseInt text) (q - 1)
              (pages_count (parseInt text)) 1) as [Hs [Hys Hgs]].
  - lia.
  - intros i Hi. apply Hload. lia.
  - intros i Hi. apply Hbelow. lia.
  - now replace (1 + (q - 1)) with q by lia.
  - replace (S (q - 1)) with q in Hys, Hgs by lia.
    rewrite Hsnd, Hy, Hg, Hs, Hys, Hgs, filter_seq_from_1. repeat split.
Qed.

(** X6. When the pages before page [q] load without passing the cap test
    and page [q] does not load, the generator throws after yielding the
    batches of pages 1 to [q - 1], and the job writes exactly those batches,
    appended in order, to the file marked incomplete, or no file when they
    hold no record. *)
Theorem scrape_fails_at_page site limit endpoint text q e :
  pagination site endpoint = Ok text ->
  1 <= q <= pages_count (parseInt text) ->
  (forall p, 1 <= p < q ->
     exists productEls, listing site endpoint p = Ok productEls) ->
  (forall p, 1 <= p < q ->
     length_ge (List.length (page_batch site limit endpoint p)) limit = false) ->
  listing site endpoint q = Threw e ->
  let saved :=
    List.concat (List.map (page_batch site limit endpoint) (seq 1 (q - 1))) in
  snd (scrape site limit endpoint) = Threw e
  /\ yields (fst (scrape site limit endpoint)) =
     List.map (page_batch site limit endpoint) (seq 1 (q - 1))
  /\ writes (fst (task site limit endpoint)) =
     match saved with
     | [] => []
     | _ :: _ => [(artifact_path (endpoint ++ ".incomplete"), saved)]
     end.
Proof.
  intros Hpag Hq Hload Hbelow Hfail saved.
  destruct (scrape_paginated site limit endpoint text Hpag) as [Hsnd [Hy _]].
  destruct (pages_loop_fails site limit endpoint (parseInt text) (q - 1) e
              (pages_count (parseInt text)) 1) as [Hs Hys].
  - lia.
  - intros i Hi. apply Hload. lia.
  - intros i Hi. apply Hbelow. lia.
  - now replace (1 + (q - 1)) with q by lia.
  - rewrite Hs in Hsnd. rewrite Hys in Hy.
    split; [exact Hsnd|]. split; [exact Hy|].
    pose proof (task_writes_outcome site limit endpoint) as Hw.
    rewrite Hw, Hsnd, Hy. reflexivity.
Qed.

(** X5. With a cap [k] of at least 1 and a first page that loads with at
    least [k] rows that go through, the job asks for no further page and
    writes exactly the first [k] of those records under the plain name of
    the category. *)
Theorem cap_met_on_first_page site (k : Z) endpoint text productEls :
  (1 <= k)%Z ->
  pagination site endpoint = Ok text ->
  1 <= pages_count (parseInt text) ->
  listing site endpoint 1 = Ok productEls ->
  Z.to_nat k <= List.length (flat_map (kept endpoint) productEls) ->
  gotos (fst (scrape site (JInt k) endpoint)) = [(BASE_URL ++ "/" ++ endpoint)%string]
  /\ writes (fst (task site (JInt k) endpoint)) =
     [(artifact_path endpoint,
       firstn (Z.to_nat k) (flat_map (kept endpoint) productEls))]
  /\ List.length (firstn (Z.to_nat k) (flat_map (kept endpoint) productEls)) =
     Z.to_nat k.
Proof.
  intros Hk Hpag Hcount Hload Henough.
  pose proof (page_batch_capped site k endpoint 1 Hk) as Hbatch.
  assert (Hrows : rows site endpoint 1 = productEls)
    by (unfold rows; now rewrite Hload).
  rewrite Hrows in Hbatch.
  assert (Hlen : List.length (firstn (Z.to_nat k)
                   (flat_map (kept endpoint) productEls)) = Z.to_nat k)
    by (rewrite length_firstn; lia).
  destruct (scrape_paginated site (JInt k) endpoint text Hpag) as [Hsnd [Hy Hg]].
  destruct (pages_loop_stops site (JInt k) endpoint (parseInt text) 0
              (pages_count (parseInt text)) 1) as [Hs [Hys Hgs]].
  - lia.
  - intros i Hi. replace (1 + i) with 1 by lia. eauto.
  - intros i Hi. lia.
  - cbn [Nat.add]. rewrite Hbatch, Hlen. simpl. apply Z.leb_le. lia.
  - rewrite Hs in Hsnd. rewrite Hys in Hy. rewrite Hgs in Hg.
    split; [exact Hg|]. split; [|exact Hlen].
    pose proof (task_writes_outcome site (JInt k) endpoint) as Hw.
    rewrite Hw, Hsnd, Hy. cbn [seq List.map List.concat].
    now rewrite Hbatch, app_nil_r.
Qed.


(** ** What the cells can do to a record *)

Lemma specs_loop_invariant (P : object -> Prop) endpoint :
  (forall field v s,
     mapped_field endpoint field \/ String.length field = 1 ->
     P s -> P (obj_set field v s)) ->
  forall specs serialized serialized',
    snd (specs_loop endpoint specs serialized) = Ok serialized' ->
    P serialized -> P serialized'.
Proof.
  intros Hstep specs.
  induction specs as [|spec rest IH]; intros serialized serialized' Hrun HP.
  - inversion Hrun. now subst.
  - cbn [specs_loop] in Hrun. rewrite snd_bind in Hrun.
    destruct (snd (serialize_spec endpoint spec serialized)) as [s1|e] eqn:Hcell;
      [|discriminate].
    apply (IH s1 serialized' Hrun).
    destruct (serialize_spec_shape endpoint spec serialized s1 Hcell)
      as [->|[field [v [Hmf ->]]]]; [exact HP | now apply Hstep].
Qed.

(** A record of a yielded batch is the record of a row of the site whose
    processing went through. *)
Lemma yielded_record_row site limit endpoint batch record :
  In batch (yields (fst (scrape site limit endpoint))) ->
  In record batch ->
  exists p productEl,
    In productEl (rows site endpoint p)
    /\ snd (serialize_product endpoint productEl) = Ok record.
Proof.
  intros Hbatch Hrecord.
  apply scrape_yields_in in Hbatch as [p ->].
  destruct (page_batch_kept site limit endpoint p) as [n Hn].
  rewrite Hn in Hrecord. apply in_flat_map in Hrecord as [productEl [Hin Hk]].
  exists p, productEl. split; [|now apply in_kept].
  rewrite <- (firstn_skipn n (rows site endpoint p)).
  apply in_or_app. now left.
Qed.





Lemma replaceAll_newline_clean (s : string) :
  no_newline (replaceAll_newline s) = true.
Proof.
  induction s as [|c r IH]; [reflexivity|].
  cbn [replaceAll_newline no_newline]. rewrite IH.
  destruct (Ascii.eqb c "010"%char) eqn:E; [reflexivity|].
  now rewrite E.
Qed.

Lemma specs_loop_keeps_field endpoint k v specs serialized serialized' :
  field_reserved endpoint k ->
  String.length k <> 1 ->
  snd (specs_loop endpoint specs serialized) = Ok serialized' ->
  obj_get k (own serialized) = Some v -> obj_get k (own serialized') = Some v.
Proof.
  intros Hres Hlen.
  apply (specs_loop_invariant (fun s => obj_get k (own s) = Some v) endpoint).
  intros field w s Hmf Hs. rewrite obj_get_set_other; [exact Hs|].
  intros Heq. symmetry in Heq. destruct Hmf as [Hmf|Hone].
  - exact (Hres field Hmf Heq).
  - congruence.
Qed.

(** X11. When the section of the category keeps the field [name] for the
    name of the item, the [name] of every yielded record is the text of the
    name paragraph of one of the rows of the site with each line feed
    replaced by a space, and holds no line feed. *)
Theorem record_name_is_row_name_without_newline
    site limit endpoint batch record :
  field_reserved endpoint "name" ->
  In batch (yields (fst (scrape site limit endpoint))) ->
  In record batch ->
  exists p productEl n,
    In productEl (rows site endpoint p)
    /\ nameText productEl = Ok n
    /\ obj_get "name" record = Some (VStr (replaceAll_newline n))
    /\ no_newline (replaceAll_newline n) = true.
Proof.
  intros Hres Hbatch Hrecord.
  destruct (yielded_record_row site limit endpoint batch record Hbatch Hrecord)
    as [p [productEl [Hin Hrun]]].
  destruct (serialize_product_start endpoint productEl record Hrun)
    as [n [pt [price [specs [serialized [Hn [_ [_ [_ [Hloop ->]]]]]]]]]].
  exists p, productEl, n. split; [exact Hin|]. split; [exact Hn|].
  split; [|apply replaceAll_newline_clean].
  apply (specs_loop_keeps_field endpoint "name" _ specs _ serialized Hres
           ltac:(discriminate) Hloop).
  now rewrite initial_object.
Qed.



(** ** One cell, one serializer at most *)

(** X13. A cell calls at most one serializer, and the generic serializer
    is never called for a mapping tagged [custom]. *)
Theorem cell_calls_one_serializer_at_most endpoint spec serialized :
  List.length (serializer_calls (fst (serialize_spec endpoint spec serialized))) <= 1
  /\ forall text kind,
       In (CallGeneric text kind) (fst (serialize_spec endpoint spec serialized)) ->
       kind <> "custom".
Proof.
  destruct (specLabel spec) as [l|e] eqn:Hl.
  2:{ unfold serialize_spec. rewrite Hl. split; [simpl; lia | intros ? ? []]. }
  rewrite (serialize_spec_looked_up endpoint spec l serialized Hl).
  pose proof (map_lookup_trace endpoint (trim l)) as Ht.
  destruct (map_lookup endpoint (trim l)) as [t [[[field kind]|]|e]];
    cbn [fst] in Ht; subst t;
    [| split; [simpl; lia | intros ? ? [H|[]]; discriminate]
     | split; [simpl; lia | intros ? ? []]].
  unfold call_custom, call_genericSerialize.
  cbn [bind lift ret fst snd app].
  destruct (specText spec) as [sv|e]; [|split; [simpl; lia | intros ? ? []]].
  cbn [bind lift ret fst snd app].
  destruct (is_blank sv); [split; [simpl; lia | intros ? ? []]|].
  cbn zeta.
  destruct (String.eqb_spec kind "custom") as [->|Hkind].
  - destruct (custom_lookup customSerializers endpoint field) as [f|].
    + destruct (f match sv with Some s => s | None => "" end);
        (split; [simpl; lia | intros ? ? [H|[]]; discriminate]).
    + split; [simpl; lia | intros ? ? [H|[]]; discriminate].
  - destruct (genericSerialize match sv with Some s => s | None => "" end kind);
      (split; [simpl; lia | intros ? ? [H|[]]; inversion H; now subst]).
Qed.

(** ** A category without a section in the table *)

Lemma specs_loop_no_section endpoint spec rest serialized :
  map endpoint = None ->
  inherited_member endpoint = false ->
  exists e, snd (specs_loop endpoint (spec :: rest) serialized) = Threw e.
Proof.
  intros Hmap Hinh. cbn [specs_loop]. rewrite snd_bind.
  unfold serialize_spec, map_lookup. rewrite Hmap, Hinh.
  destruct (specLabel spec) as [l|e]; simpl; eauto.
Qed.

(** X14. For a category whose name is neither a key of the table nor the
    name of a member of [Object.prototype], [map[endpoint]] is [undefined]
    and a row with at least one attribute cell is never kept: it adds
    nothing to the batch and one error line is printed for it. *)
Theorem row_with_cells_dropped_without_section endpoint productEl spec rest :
  map endpoint = None ->
  inherited_member endpoint = false ->
  specEls productEl = Ok (spec :: rest) ->
  kept endpoint productEl = []
  /\ List.length (dropped endpoint productEl) = 1.
Proof.
  intros Hmap Hinh Hspecs.
  assert (Hthrew : exists e, snd (serialize_product endpoint productEl) = Threw e).
  { unfold serialize_product.
    rewrite snd_bind. cbn [lift snd].
    destruct (nameText productEl) as [n|e]; [|eauto].
    rewrite snd_bind. cbn [lift snd].
    destruct (priceText productEl) as [pt|e]; [|eauto].
    rewrite snd_bind.
    destruct (snd (serialize_price serializeNumber pt)) as [price|e]; [|eauto].
    rewrite snd_bind. cbn [lift snd]. rewrite Hspecs.
    rewrite snd_bind.
    destruct (specs_loop_no_section endpoint spec rest
                (obj_set "price" price
                   (obj_set "name" (VStr (replaceAll_newline n)) empty_object))
                Hmap Hinh) as [e ->].
    eauto. }
  destruct Hthrew as [e He]. unfold kept, dropped. rewrite He. now split.
Qed.

(** ** A label that [Object.prototype] answers to *)

Lemma specs_loop_inherited_label endpoint section pre spec post l serialized :
  map endpoint = Some section ->
  specLabel spec = Ok l ->
  section (trim l) = None ->
  inherited_member (trim l) = true ->
  exists e, snd (specs_loop endpoint (pre ++ spec :: post) serialized) = Threw e.
Proof.
  intros Hmap Hl Hnone Hinh. rewrite specs_loop_app, snd_bind.
  destruct (snd (specs_loop endpoint pre serialized)) as [a|e]; [|eauto].
  cbn [specs_loop]. rewrite snd_bind.
  rewrite (serialize_spec_inherited_label endpoint section spec l a
             Hmap Hl Hnone Hinh).
  cbn [snd]. eauto.
Qed.

(** X21. A row with a cell whose trimmed label has no entry in the section
    of the category and is the name of a member of [Object.prototype]
    ([constructor], [toString], [valueOf], ...): the cell prints nothing
    and throws, [mapped] being the inherited member, which cannot be
    destructured; whatever the other cells of the row hold, the row is not
    kept, and one error line is printed for it. *)
Theorem inherited_label_drops_row
    endpoint section productEl pre spec post l serialized :
  map endpoint = Some section ->
  specEls productEl = Ok (pre ++ spec :: post) ->
  specLabel spec = Ok l ->
  section (trim l) = None ->
  inherited_member (trim l) = true ->
  serialize_spec endpoint spec serialized = ([], Threw not_iterable)
  /\ kept endpoint productEl = []
  /\ List.length (dropped endpoint productEl) = 1.
Proof.
  intros Hmap Hspecs Hl Hnone Hinh.
  split; [now apply (serialize_spec_inherited_label endpoint section spec l)|].
  assert (Hthrew : exists e, snd (serialize_product endpoint productEl) = Threw e).
  { unfold serialize_product.
    rewrite snd_bind. cbn [lift snd].
    destruct (nameText productEl) as [n|e]; [|eauto].
    rewrite snd_bind. cbn [lift snd].
    destruct (priceText productEl) as [pt|e]; [|eauto].
    rewrite snd_bind.
    destruct (snd (serialize_price serializeNumber pt)) as [price|e]; [|eauto].
    rewrite snd_bind. cbn [lift snd]. rewrite Hspecs.
    rewrite snd_bind.
    destruct (specs_loop_inherited_label endpoint section pre spec post l
                (obj_set "price" price
                   (obj_set "name" (VStr (replaceAll_newline n)) empty_object))
                Hmap Hl Hnone Hinh) as [e ->].
    eauto. }
  destruct Hthrew as [e He]. unfold kept, dropped. rewrite He. now split.
Qed.

(** ** Every row is either kept or reported *)

Lemma kept_or_dropped endpoint productEl :
  List.length (kept endpoint productEl) + List.length (dropped endpoint productEl) = 1.
Proof.
  unfold kept, dropped.
  destruct (snd (serialize_product endpoint productEl)); reflexivity.
Qed.

Lemma kept_plus_dropped endpoint productEls :
  List.length (flat_map (kept endpoint) productEls)
  + List.length (flat_map (dropped endpoint) productEls)
  = List.length productEls.
Proof.
  induction productEls as [|productEl rest IH]; [reflexivity|].
  cbn [flat_map List.length]. rewrite !length_app.
  pose proof (kept_or_dropped endpoint productEl). lia.
Qed.

(** X15. On every page, the records of the batch and the error lines
    printed never outnumber the rows of the page, and without a cap they
    add up to the number of rows: each row is either in the batch or
    reported by one error line. *)
Theorem rows_kept_or_reported site limit endpoint p :
  let run := items_loop limit endpoint (rows site endpoint p) [] in
  List.length (page_batch site limit endpoint p)
  + List.length (error_lines (fst run))
  <= List.length (rows site endpoint p)
  /\ (limit = JInfinity ->
      List.length (page_batch site limit endpoint p)
      + List.length (error_lines (fst run))
      = List.length (rows site endpoint p)).
Proof.
  intros run. subst run. unfold page_batch.
  destruct (items_loop_prefix limit endpoint (rows site endpoint p) [])
    as [n [Hn [Hres [Herr Hstop]]]].
  rewrite Hres, Herr. cbn [app].
  pose proof (kept_plus_dropped endpoint (firstn n (rows site endpoint p))) as Hsum.
  rewrite length_firstn in Hsum.
  split; [lia|]. intros ->.
  destruct (Nat.eq_dec n (List.length (rows site endpoint p))) as [|Hne]; [lia|].
  assert (Hlt : n < List.length (rows site endpoint p)) by lia.
  apply Hstop in Hlt. discriminate.
Qed.


(** ** The progress bar and the navigation of a job *)

Lemma increments_app (t t' : trace) :
  increments (t ++ t') = increments t + increments t'.
Proof. unfold increments. now rewrite filter_app, length_app. Qed.

Lemma gotos_for_await (t : trace) (allParts : list Part) :
  gotos (fst (for_await t allParts)) = gotos t.
Proof.
  rewrite for_await_spec. cbn [fst].
  induction t as [|ev t IH]; [reflexivity|].
  unfold gotos in *. cbn [List.map flat_map]. rewrite IH. now destruct ev.
Qed.

Lemma increments_for_await (t : trace) (allParts : list Part) :
  Forall (fun ev => generator_event ev = true) t ->
  increments (fst (for_await t allParts)) = List.length (yields t).
Proof.
  rewrite for_await_spec. cbn [fst].
  induction 1 as [|ev t Hev _ IH]; [reflexivity|].
  unfold increments, yields in *. cbn [List.map filter flat_map].
  destruct ev; simpl in *; try discriminate; rewrite ?IH; reflexivity.
Qed.

Lemma progress_totals_for_await (t : trace) (allParts : list Part) :
  Forall (fun ev => generator_event ev = true) t ->
  progress_totals (fst (for_await t allParts)) = [].
Proof.
  rewrite for_await_spec. cbn [fst].
  induction 1 as [|ev t Hev _ IH]; [reflexivity|].
  unfold progress_totals in *. cbn [List.map flat_map]. rewrite IH.
  destruct ev; simpl in *; congruence.
Qed.

(** The trace of a job: the trace of its [try] block, then at most a
    warning and a file. *)
Lemma task_trace site limit endpoint :
  exists tail,
    fst (task site limit endpoint) = fst (fst (try_block site limit endpoint)) ++ tail
    /\ increments tail = 0 /\ gotos tail = [] /\ progress_totals tail = [].
Proof.
  unfold task.
  destruct (try_block site limit endpoint) as [[t [[]|error]] allParts].
  - cbn [bind try_catch ret emit fst snd app]. rewrite !app_nil_r.
    eexists. split; [reflexivity | repeat split].
  - destruct allParts as [|part allParts];
      cbn [bind try_catch ret emit console fst snd app];
      rewrite ?app_nil_r, <- ?app_assoc;
      eexists; (split; [reflexivity | repeat split]).
Qed.

(** X16. The progress bar of a job is incremented once for each batch the
    generator yields, however the job ends. *)
Theorem progress_incremented_once_per_batch site limit endpoint :
  increments (fst (task site limit endpoint)) =
  List.length (yields (fst (scrape site limit endpoint))).
Proof.
  destruct (task_trace site limit endpoint) as [tail [Ht [Hi _]]].
  rewrite Ht, increments_app, Hi, Nat.add_0_r.
  destruct (pagination site endpoint) as [text|e] eqn:Hpag.
  - rewrite (try_block_paginated site limit endpoint text Hpag).
    cbn [fst]. rewrite fst_bind. cbn [fst snd]. rewrite increments_app.
    change (increments (Goto (BASE_URL ++ "/" ++ endpoint)
                          :: ProgressStart (parseInt text)
                          :: fst (for_await (fst (scrape site limit endpoint)) [])))
      with (increments (fst (for_await (fst (scrape site limit endpoint)) []))).
    rewrite increments_for_await by apply scrape_events.
    destruct (snd (scrape site limit endpoint));
      [change (increments (fst (emit ProgressStop))) with 0
      |change (increments []) with 0]; lia.
  - rewrite (try_block_no_pagination site limit endpoint e Hpag).
    now rewrite (scrape_no_pagination site limit endpoint e Hpag).
Qed.

(** X17. A category whose pagination reads [n] and whose [n] pages load,
    scraped without a cap: the progress bar is started once, with total [n],
    and incremented [n] times. *)
Theorem progress_bar_completes site endpoint text n :
  pagination site endpoint = Ok text ->
  parseInt text = JInt (Z.of_nat n) ->
  (forall p, 1 <= p <= n ->
             exists productEls, listing site endpoint p = Ok productEls) ->
  progress_totals (fst (task site JInfinity endpoint)) = [JInt (Z.of_nat n)]
  /\ increments (fst (task site JInfinity endpoint)) = n.
Proof.
  intros Hpag Hn Hall.
  assert (Hcount : pages_count (parseInt text) = n).
  { rewrite Hn. simpl. apply Nat2Z.id. }
  destruct (scrape_pages_load site JInfinity endpoint text Hpag)
    as [m [Hm [Hsnd [Hys [_ Hstop]]]]].
  { rewrite Hcount. exact Hall. }
  assert (m = n) as ->.
  { destruct (Nat.eq_dec m n) as [|Hne]; [assumption|].
    destruct Hstop as [_ Hc]; [lia | discriminate]. }
  destruct (task_trace site JInfinity endpoint) as [tail [Ht [Hi [_ Hp]]]].
  split.
  - rewrite Ht. unfold progress_totals in *. rewrite flat_map_app, Hp, app_nil_r.
    rewrite (try_block_paginated site JInfinity endpoint text Hpag).
    cbn [fst]. rewrite fst_bind. cbn [fst snd flat_map app].
    rewrite Hsnd, flat_map_app.
    fold (progress_totals (fst (for_await (fst (scrape site JInfinity endpoint)) []))).
    rewrite progress_totals_for_await by apply scrape_events.
    now rewrite Hn.
  - rewrite Ht, increments_app, Hi, Nat.add_0_r.
    rewrite (try_block_paginated site JInfinity endpoint text Hpag).
    cbn [fst]. rewrite fst_bind. cbn [fst snd]. rewrite increments_app.
    change (increments (Goto (BASE_URL ++ "/" ++ endpoint)
                          :: ProgressStart (parseInt text)
                          :: fst (for_await (fst (scrape site JInfinity endpoint)) [])))
      with (increments (fst (for_await (fst (scrape site JInfinity endpoint)) []))).
    rewrite increments_for_await by apply scrape_events.
    rewrite Hys, length_map, length_seq, Hsnd.
    change (increments (fst (emit ProgressStop))) with 0. lia.
Qed.

(** X18. A job asks for the first page of its category twice, once to
    start the progress bar and once when the generator starts, before any
    other page: its navigation is the address of the category followed by
    the navigation of the generator; when the pagination cannot be read the
    address is asked for once and the job stops. *)
Theorem task_navigation site limit endpoint :
  gotos (fst (task site limit endpoint)) =
  match pagination site endpoint with
  | Ok _ => (BASE_URL ++ "/" ++ endpoint)%string
            :: gotos (fst (scrape site limit endpoint))
  | Threw _ => [(BASE_URL ++ "/" ++ endpoint)%string]
  end
  /\ forall text,
       pagination site endpoint = Ok text ->
       exists later,
         gotos (fst (task site limit endpoint)) =
         (BASE_URL ++ "/" ++ endpoint)%string
         :: (BASE_URL ++ "/" ++ endpoint)%string :: later.
Proof.
  destruct (task_trace site limit endpoint) as [tail [Ht [_ [Hg _]]]].
  assert (H : gotos (fst (task site limit endpoint)) =
    match pagination site endpoint with
    | Ok _ => (BASE_URL ++ "/" ++ endpoint)%string
              :: gotos (fst (scrape site limit endpoint))
    | Threw _ => [(BASE_URL ++ "/" ++ endpoint)%string]
    end).
  { rewrite Ht, gotos_app, Hg, app_nil_r.
    destruct (pagination site endpoint) as [text|e] eqn:Hpag.
    - rewrite (try_block_paginated site limit endpoint text Hpag).
      cbn [fst]. rewrite fst_bind. cbn [fst snd]. rewrite gotos_app.
      change (gotos (Goto (BASE_URL ++ "/" ++ endpoint)
                       :: ProgressStart (parseInt text)
                       :: fst (for_await (fst (scrape site limit endpoint)) [])))
        with ((BASE_URL ++ "/" ++ endpoint)%string
              :: gotos (fst (for_await (fst (scrape site limit endpoint)) []))).
      rewrite gotos_for_await.
      destruct (snd (scrape site limit endpoint)); cbn [emit fst gotos flat_map app];
        now rewrite app_nil_r.
    - now rewrite (try_block_no_pagination site limit endpoint e Hpag). }
  split; [exact H|].
  intros text Hpag. rewrite H, Hpag.
  destruct (scrape_paginated site limit endpoint text Hpag) as [_ [_ Hgs]].
  rewrite Hgs. eauto.
Qed.


(** ** The jobs of a run *)











End Pipeline.


(** ** The command line *)

Lemma endpointsToScrape_default : endpointsToScrape [] = ALL_ENDPOINTS.
Proof. reflexivity. Qed.

Lemma endpointsToScrape_given (inputEndpoints : list string) :
  inputEndpoints <> [] -> endpointsToScrape inputEndpoints = inputEndpoints.
Proof. destruct inputEndpoints; [congruence | reflexivity]. Qed.

(** C4, on the code. Called with [-n 5] and no category, the script takes
    the flag and its value for the categories to scrape: [endpointsToScrape]
    is the argument list itself, not the full list, while [limit] is read
    from the same two arguments; the run queues the jobs [-n] and [5]. *)
Theorem C4_flag_taken_for_categories :
  endpointsToScrape ["-n"; "5"] = ["-n"; "5"]
  /\ endpointsToScrape ["-n"; "5"] <> ALL_ENDPOINTS
  /\ limit_of ["-n"; "5"] = ([], Ok (JInt 5))
  /\ queued (fst (Demo.main Demo.two_pages ["-n"; "5"])) = ["-n"; "5"].
Proof. repeat split. discriminate. Qed.

(** ** Runs on the small site *)

(** C2, on the code. Called with [cpu -n 3] on a category of two pages with
    two good rows each, the script reads the cap 3, asks for both pages and
    writes four records: the cap test looks at the batch of the current
    page, which never reaches 3. *)
Theorem C2_cap_counted_per_page :
  let run := Demo.main Demo.two_pages ["cpu"; "-n"; "3"] in
  limit_of ["cpu"; "-n"; "3"] = ([], Ok (JInt 3))
  /\ List.map (@List.length Part) (yields (fst (Demo.scrape Demo.two_pages (JInt 3) "cpu")))
     = [2; 2]
  /\ In "https://pcpartpicker.com/products/cpu/#page=2" (gotos (fst run))
  /\ List.map (fun w => (fst w, List.length (snd w))) (writes (fst run)) =
     [("data-staging/json/cpu.json", 4)].
Proof. vm_compute. repeat split. right; right; right; left; reflexivity. Qed.

(** With [-n 0] the first record is still written: the cap test comes after
    the [push]. *)
Example cap_zero_writes_one :
  List.map (fun w => (fst w, List.length (snd w)))
      (writes (fst (Demo.main Demo.two_pages ["cpu"; "-n"; "0"]))) =
  [("data-staging/json/cpu.json", 1)].
Proof. reflexivity. Qed.

(** C7, on the code. The cell labelled [constructor] of a [cpu] row has no
    entry in the section of [cpu]; the lookup finds the member that every
    object inherits, the destructuring of it throws, no warning is printed
    and the row is dropped with an error line, where a cell labelled
    [Mystery Spec] is skipped with its warning and the row kept. *)
Theorem C7_inherited_label_drops_row :
  Demo.cpu_section (trim "constructor") = None
  /\ serialize_spec Demo.map Demo.inherited Demo.customSerializers
       Demo.genericSerialize "cpu" (Demo.spec "constructor" "x")
       {| null_prototype := false;
          own := [("name", VStr "A3"); ("price", VNum (inject_Z 129))] |}
     = ([], Threw not_iterable)
  /\ process_product Demo.map Demo.inherited Demo.customSerializers
       Demo.genericSerialize Demo.serializeNumber "cpu" Demo.a3 []
     = ([CallSerializeNumber "129";
         Console Error "Error processing product: mapped is not iterable"],
        Ok [])
  /\ List.length
       (kept Demo.map Demo.inherited Demo.customSerializers
          Demo.genericSerialize Demo.serializeNumber "cpu" Demo.a2) = 1.
Proof. repeat split. Qed.

(** A category named like a member of [Object.prototype] has no section
    in the table, yet its rows are kept: [map["toString"]] is a function,
    its [name] is a string whose first two characters are taken for the
    field and the kind, and a label it does not answer to is skipped with
    the warning. *)
Example row_kept_for_inherited_endpoint :
  Demo.map "toString" = None
  /\ process_product Demo.map Demo.inherited Demo.customSerializers
       Demo.genericSerialize Demo.serializeNumber "toString" Demo.a4 []
     = ([CallSerializeNumber "129"; CallGeneric "x" "o";
         unknown_spec_warning "toString" "Core Count"],
        Ok [[("name", VStr "A4"); ("price", VNum (inject_Z 129));
             ("t", VStr "x")]]).
Proof. split; reflexivity. Qed.

(** The keys of a record: array indices come first, in ascending order,
    and an assignment to [__proto__] adds no key unless the prototype has
    been set to null before. *)
Example record_key_order :
  let record :=
    obj_set "price" VNull (obj_set "name" (VStr "A1") empty_object) in
  own (obj_set "7" VNull (obj_set "mode" VNull (obj_set "12" VNull record)))
  = [("7", VNull); ("12", VNull); ("name", VStr "A1"); ("price", VNull);
     ("mode", VNull)]
  /\ own (obj_set "__proto__" (VStr "x") record) = own record
  /\ own (obj_set "__proto__" (VStr "x") (obj_set "__proto__" VNull record))
     = [("name", VStr "A1"); ("price", VNull); ("__proto__", VStr "x")].
Proof. repeat split. Qed.


(** C3, as stated, fails: the site answers 403 and never shows [nav], the
    fetch test fails, nothing is queued or written, and the exit code is 0. *)
Lemma C3_counterexample :
  let run := Demo.main Demo.blocked ["cpu"] in
  (exists e, nav Demo.blocked = Threw e)
  /\ ~ (queued (fst run) = [] /\ writes (fst run) = []
        /\ exit_code run <> 0%Z).
Proof.
  split; [eexists; reflexivity|].
  intros [_ [_ Hexit]]. apply Hexit. reflexivity.
Qed.

(** C8, as stated, fails: the cell [Mode] of [cpu] is mapped [custom], no
    serializer is registered for it, its raw value is blank, and no warning
    is printed. *)
Lemma C8_counterexample :
  let cell := Demo.spec "Mode" "  " in
  Demo.cpu_section (trim "Mode") = Some ("mode", "custom")
  /\ custom_lookup Demo.customSerializers "cpu" "mode" = None
  /\ ~ (exists msg,
          In (Console Warn msg)
             (fst (serialize_spec Demo.map Demo.inherited Demo.customSerializers
                     Demo.genericSerialize "cpu" cell empty_object))).
Proof.
  repeat split. intros [msg []].
Qed.

(** ** The theorems at work on the small site *)


Lemma C3_witness :
  launch Demo.blocked = Ok tt
  /\ (exists e, nav Demo.blocked = Threw e)
  /\ queued (fst (Demo.main Demo.blocked ["cpu"])) = []
  /\ exit_code (Demo.main Demo.blocked ["cpu"]) = 0%Z.
Proof.
  split; [reflexivity|]. split; [eexists; reflexivity|].
  pose proof (C3_failed_fetch_test_queues_nothing Demo.map Demo.inherited
                Demo.customSerializers Demo.genericSerialize
                Demo.serializeNumber [] Demo.blocked ["cpu"] eq_refl
                (or_intror (ex_intro _ _ eq_refl))) as H.
  split; [exact (proj1 H) | exact (proj2 (proj2 (proj2 H)))].
Defined.

Lemma two_pages_load (p : nat) :
  1 <= p <= 2 -> exists productEls, listing Demo.two_pages "cpu" p = Ok productEls.
Proof.
  intros Hp. destruct p as [|[|[|p]]]; [lia | | | lia]; eexists; reflexivity.
Defined.

Lemma C5_witness :
  snd (Demo.scrape Demo.two_pages (JInt 2) "cpu") = Ok tt
  /\ writes (fst (Demo.task Demo.two_pages (JInt 2) "cpu")) =
     [(artifact_path "cpu",
       List.concat (yields (fst (Demo.scrape Demo.two_pages (JInt 2) "cpu"))))].
Proof.
  pose proof (C5_item_failure_isolated Demo.map Demo.inherited Demo.customSerializers
                Demo.genericSerialize Demo.serializeNumber Demo.two_pages
                (JInt 2) "cpu" "2" eq_refl two_pages_load) as H.
  split; [exact (proj1 H) | exact (proj1 (proj2 H))].
Defined.

Lemma C6_witness :
  List.length (yields (fst (Demo.scrape Demo.two_pages JInfinity "cpu"))) = 2
  /\ gotos (fst (Demo.scrape Demo.two_pages JInfinity "cpu")) =
     ["https://pcpartpicker.com/products/cpu";
      "https://pcpartpicker.com/products/cpu/#page=2"].
Proof.
  pose proof (C6_one_batch_per_page_in_order Demo.map Demo.inherited Demo.customSerializers
                Demo.genericSerialize Demo.serializeNumber Demo.two_pages
                "cpu" "2" 2 eq_refl eq_refl two_pages_load) as H.
  split; [exact (proj1 (proj2 (proj2 H)))
         | exact (proj1 (proj2 (proj2 (proj2 H))))].
Defined.

Lemma unknown_label_skipped_witness :
  Demo.cpu_section (trim "Mystery Spec") = None
  /\ inherited_member (trim "Mystery Spec") = false
  /\ snd (specs_loop Demo.map Demo.inherited Demo.customSerializers
            Demo.genericSerialize "cpu"
            [Demo.spec "Core Count" "8"; Demo.spec "Mystery Spec" "x";
             Demo.spec "Integrated Graphics" "None"] empty_object)
     = snd (specs_loop Demo.map Demo.inherited Demo.customSerializers
              Demo.genericSerialize "cpu"
              [Demo.spec "Core Count" "8"; Demo.spec "Integrated Graphics" "None"]
              empty_object).
Proof.
  split; [reflexivity|]. split; [reflexivity|].
  exact (proj2 (proj2
    (unknown_label_skipped Demo.map Demo.inherited Demo.customSerializers
       Demo.genericSerialize "cpu" Demo.cpu_section
       [Demo.spec "Core Count" "8"] (Demo.spec "Mystery Spec" "x")
       [Demo.spec "Integrated Graphics" "None"] "Mystery Spec" empty_object
       eq_refl eq_refl eq_refl eq_refl))).
Defined.

Lemma C8_witness :
  custom_lookup Demo.customSerializers "cpu" "mode" = None
  /\ serialize_spec Demo.map Demo.inherited Demo.customSerializers Demo.genericSerialize "cpu"
       (Demo.spec "Mode" "64-bit") empty_object =
     ([missing_custom_warning "cpu" "mode"],
      Ok {| null_prototype := false; own := [("mode", VNull)] |}).
Proof.
  split; [reflexivity|].
  exact (C8_missing_custom_serializer Demo.map Demo.inherited Demo.customSerializers
           Demo.genericSerialize "cpu" Demo.cpu_section
           (Demo.spec "Mode" "64-bit") "Mode" "mode" (Some "64-bit")
           empty_object
           eq_refl eq_refl eq_refl eq_refl eq_refl).
Defined.

Lemma cpu_name_reserved : name_reserved Demo.map "cpu".
Proof.
  intros section label field kind Hmap Hsec.
  injection Hmap as <-. unfold Demo.cpu_section in Hsec.
  destruct (String.eqb label "Core Count"); [injection Hsec as <- _; discriminate|].
  destruct (String.eqb label "Integrated Graphics");
    [injection Hsec as <- _; discriminate|].
  destruct (String.eqb label "Mode"); [injection Hsec as <- _|]; discriminate.
Defined.

Lemma C9_witness :
  let record := [("name", VStr "A1"); ("price", VNum (inject_Z 129));
                 ("core_count", VNum (inject_Z 8))] in
  (exists s, obj_get "name" record = Some (VStr s)) /\ has_key "price" record.
Proof.
  exact (C9_name_and_price_present Demo.map Demo.inherited Demo.customSerializers
           Demo.genericSerialize Demo.serializeNumber Demo.two_pages JInfinity
           "cpu" _ _ cpu_name_reserved (or_introl eq_refl) (or_introl eq_refl)).
Defined.

Lemma C10_witness :
  all_ws (String "194" (String "160" " ")) = true
  /\ serialize_spec Demo.map Demo.inherited Demo.customSerializers
       Demo.genericSerialize "cpu"
       (Demo.spec "Core Count" (String "194" (String "160" " "))) empty_object
     = ([], Ok {| null_prototype := false; own := [("core_count", VNull)] |}).
Proof.
  split; [reflexivity|].
  exact (proj1 (proj2
    (C10_blank_value_null_without_serializer Demo.map Demo.inherited
       Demo.customSerializers Demo.genericSerialize "cpu" Demo.cpu_section
       (Demo.spec "Core Count" (String "194" (String "160" " ")))
       "Core Count" "core_count" "number"
       (Some (String "194" (String "160" " "))) empty_object
       eq_refl eq_refl eq_refl eq_refl
       (or_intror (ex_intro _ (String "194" (String "160" " "))
                     (conj eq_refl eq_refl)))))).
Defined.

(** ** The helpers on a few inputs *)

Example parseInt_decimal : parseInt "42" = JInt 42.
Proof. reflexivity. Qed.

Example parseInt_prefix : parseInt " -12px" = JInt (-12).
Proof. reflexivity. Qed.

Example parseInt_hex : parseInt "0x1f" = JInt 31.
Proof. reflexivity. Qed.

Example parseInt_not_a_number : parseInt "many" = JNaN.
Proof. reflexivity. Qed.

(** Beyond 2^53 the digits are rounded to the nearest double. *)
Example parseInt_rounded : parseInt "9007199254740993" = JInt 9007199254740992.
Proof. vm_compute. reflexivity. Qed.

(** White space of more than one byte is skipped as well. *)
Example parseInt_after_no_break_space :
  parseInt (String "194" (String "160" "12")) = JInt 12.
Proof. reflexivity. Qed.

Example number_toString_rounded :
  string_of_jsnum (JInt (2 ^ 64)) = "18446744073709552000"
  /\ string_of_jsnum (JInt (2 ^ 70)) = "1.1805916207174113e+21".
Proof. vm_compute. split; reflexivity. Qed.

(** Enough digits after a minus sign give a cap of [-Infinity], which is
    not [NaN] and is kept. *)
Example limit_of_negative_infinity :
  limit_of ["-n"; String "-" (string_of_list_ascii (repeat "9"%char 309))] =
  ([], Ok JNegInfinity).
Proof. vm_compute. reflexivity. Qed.

Example limit_of_invalid :
  limit_of ["cpu"; "-n"; "many"] =
  ([Console Warn "Invalid limit value provided. Defaulting to Infinity."],
   Ok JInfinity).
Proof. reflexivity. Qed.

Example limit_of_absent : limit_of ["cpu"] = ([], Ok JInfinity).
Proof. reflexivity. Qed.

Example trim_both_ends : trim "  Core Count " = "Core Count".
Proof. reflexivity. Qed.

(** A no-break space (bytes 194, 160) and a line separator (bytes 226,
    128, 168) are trimmed like a space. *)
Example trim_no_break_space :
  trim (String "194" (String "160" "Core Count")
        ++ String "226" (String "128" (String "168" " ")))
  = "Core Count".
Proof. reflexivity. Qed.

(** A label that ends with a no-break space is found in the table, and a
    [custom] cell whose value is a no-break space is set to null without
    the warning about the missing serializer. *)
Example cells_with_no_break_space :
  serialize_spec Demo.map Demo.inherited Demo.customSerializers
    Demo.genericSerialize "cpu"
    (Demo.spec ("Core Count" ++ String "194" (String "160" "")) "8")
    empty_object
  = ([CallGeneric "8" "number"],
     Ok {| null_prototype := false;
           own := [("core_count", VNum (inject_Z 8))] |})
  /\ serialize_spec Demo.map Demo.inherited Demo.customSerializers
       Demo.genericSerialize "cpu"
       (Demo.spec "Mode" (String "194" (String "160" ""))) empty_object
     = ([], Ok {| null_prototype := false; own := [("mode", VNull)] |}).
Proof. split; reflexivity. Qed.

(** [`${error}`] for an error without a message is its name alone. *)
Example exn_toString_without_message :
  exn_toString {| ename := "Error"; message := "" |} = "Error"
  /\ exn_toString Demo.boom = "Error: boom".
Proof. split; reflexivity. Qed.

(** ** Reading the cap from the command line *)

Lemma indexOf_first (x : string) (pre rest : list string) :
  ~ In x pre -> indexOf x (pre ++ x :: rest) = Some (List.length pre).
Proof.
  induction pre as [|y pre IH]; intros Hnot.
  - simpl. now rewrite String.eqb_refl.
  - cbn [app indexOf List.length].
    destruct (String.eqb_spec y x) as [->|Hne].
    + exfalso. apply Hnot. now left.
    + rewrite IH; [reflexivity|]. intros Hin. apply Hnot. now right.
Qed.

Lemma nth_error_after (pre : list string) (x : string) (rest : list string) :
  nth_error (pre ++ x :: rest) (List.length pre + 1) = nth_error rest 0.
Proof.
  induction pre as [|y pre IH]; [reflexivity|]. exact IH.
Qed.

(** X1. [limit] is never [NaN]: reading the cap never throws, gives an
    infinity or an integer, and prints at most the one warning about an
    invalid value, in which case the cap is [Infinity]. *)
Theorem limit_never_NaN (inputEndpoints : list string) :
  exists w l,
    limit_of inputEndpoints = (w, Ok l)
    /\ (l = JInfinity \/ l = JNegInfinity \/ exists k, l = JInt k)
    /\ (w = []
        \/ (l = JInfinity
            /\ w = [Console Warn
                      "Invalid limit value provided. Defaulting to Infinity."])).
Proof.
  unfold limit_of.
  destruct (indexOf "-n" inputEndpoints) as [i|];
    [|exists [], JInfinity; repeat split; auto].
  destruct (nth_error inputEndpoints (i + 1)) as [[|c s]|];
    [exists [], JInfinity; repeat split; auto|
    |exists [], JInfinity; repeat split; auto].
  destruct (parseInt (String c s)) as [| | |k] eqn:Hparse; cbn [isNaN negb].
  - eexists _, JInfinity. split; [reflexivity|]. split; auto.
  - exists [], JInfinity. split; [reflexivity|]. split; auto.
  - exists [], JNegInfinity. split; [reflexivity|]. split; auto.
  - exists [], (JInt k). split; [reflexivity|]. split; eauto.
Qed.

(** X2. The cap is read from the argument that follows the first [-n]:
    when [-n] is the last argument the cap is [Infinity] and nothing is
    printed; when the next argument starts with an integer (after optional
    white space and sign) the cap is that integer; when it is not empty and
    does not, the cap is [Infinity] and the warning is printed. *)
Theorem limit_read_after_first_flag (pre : list string) :
  ~ In "-n" pre ->
  limit_of (pre ++ ["-n"]) = ([], Ok JInfinity)
  /\ (forall s post k,
        parseInt s = JInt k ->
        limit_of (pre ++ "-n" :: s :: post) = ([], Ok (JInt k)))
  /\ (forall s post,
        s <> "" ->
        parseInt s = JNaN ->
        limit_of (pre ++ "-n" :: s :: post) =
        ([Console Warn "Invalid limit value provided. Defaulting to Infinity."],
         Ok JInfinity)).
Proof.
  intros Hnot. split; [|split].
  - unfold limit_of. rewrite indexOf_first by exact Hnot.
    now rewrite nth_error_after.
  - intros s post k Hparse. unfold limit_of.
    rewrite indexOf_first by exact Hnot. rewrite nth_error_after. cbn [nth_error].
    destruct s as [|c s]; [discriminate|]. now rewrite Hparse.
  - intros s post Hne Hparse. unfold limit_of.
    rewrite indexOf_first by exact Hnot. rewrite nth_error_after. cbn [nth_error].
    destruct s as [|c s]; [congruence|]. now rewrite Hparse.
Qed.

(** ** The further properties at work on the small site *)

Lemma page_batch_first_k_witness :
  (1 <= 1)%Z
  /\ (Z.of_nat (List.length
        (page_batch Demo.map Demo.inherited Demo.customSerializers Demo.genericSerialize
           Demo.serializeNumber Demo.two_pages (JInt 1) "cpu" 1)) <= 1)%Z.
Proof.
  split; [lia|].
  exact (proj2 (page_batch_first_k Demo.map Demo.inherited Demo.customSerializers
                  Demo.genericSerialize Demo.serializeNumber Demo.two_pages
                  1%Z "cpu" 1 ltac:(lia))).
Defined.

Lemma first_page_loads (p : nat) :
  1 <= p <= 1 -> exists productEls, listing Demo.two_pages "cpu" p = Ok productEls.
Proof.
  intros Hp. destruct p as [|[|p]]; [lia | | lia]. eexists; reflexivity.
Defined.

Lemma scrape_stops_at_first_capped_page_witness :
  gotos (fst (Demo.scrape Demo.two_pages (JInt 2) "cpu")) =
  ["https://pcpartpicker.com/products/cpu"].
Proof.
  exact (proj2 (proj2
    (scrape_stops_at_first_capped_page Demo.map Demo.inherited Demo.customSerializers
       Demo.genericSerialize Demo.serializeNumber Demo.two_pages (JInt 2)
       "cpu" "2" 1 eq_refl ltac:(simpl; lia) first_page_loads
       ltac:(intros p Hp; lia) eq_refl))).
Defined.

Lemma cap_met_on_first_page_witness :
  List.map (fun w => (fst w, List.length (snd w)))
    (writes (fst (Demo.task Demo.two_pages (JInt 2) "cpu"))) =
  [("data-staging/json/cpu.json", 2)].
Proof.
  pose proof (cap_met_on_first_page Demo.map Demo.inherited Demo.customSerializers
                Demo.genericSerialize Demo.serializeNumber Demo.two_pages
                2%Z "cpu" "2" [Demo.a1; Demo.broken; Demo.a2]
                ltac:(lia) eq_refl ltac:(simpl; lia) eq_refl
                ltac:(simpl; lia)) as [_ [Hw _]].
  unfold Demo.task. rewrite Hw. reflexivity.
Defined.

Lemma first_page_loads_down (p : nat) :
  1 <= p < 2 ->
  exists productEls, listing Demo.second_page_down "cpu" p = Ok productEls.
Proof.
  intros Hp. destruct p as [|[|p]]; [lia | | lia]. eexists; reflexivity.
Defined.

Lemma scrape_fails_at_page_witness :
  snd (Demo.scrape Demo.second_page_down JInfinity "cpu") = Threw Demo.boom
  /\ List.map (fun w => (fst w, List.length (snd w)))
       (writes (fst (Demo.task Demo.second_page_down JInfinity "cpu"))) =
     [("data-staging/json/cpu.incomplete.json", 2)].
Proof.
  pose proof (scrape_fails_at_page Demo.map Demo.inherited Demo.customSerializers
                Demo.genericSerialize Demo.serializeNumber
                Demo.second_page_down JInfinity "cpu" "2" 2 Demo.boom
                eq_refl ltac:(simpl; lia) first_page_loads_down
                ltac:(intros p Hp; reflexivity) eq_refl) as [Hs [_ Hw]].
  split; [exact Hs|]. unfold Demo.task. rewrite Hw. reflexivity.
Defined.

Lemma no_pagination_no_file_witness :
  pagination Demo.two_pages "os" = Threw Demo.boom
  /\ writes (fst (Demo.task Demo.two_pages JInfinity "os")) = [].
Proof.
  split; [reflexivity|].
  exact (proj2 (proj2 (proj2
    (no_pagination_no_file Demo.map Demo.inherited Demo.customSerializers
       Demo.genericSerialize Demo.serializeNumber Demo.two_pages JInfinity
       "os" Demo.boom eq_refl)))).
Defined.

Lemma no_pages_empty_file_witness :
  parseInt "Next" = JNaN
  /\ writes (fst (Demo.task Demo.no_count JInfinity "cpu")) =
     [("data-staging/json/cpu.json", [])].
Proof.
  split; [reflexivity|].
  exact (proj2 (proj2 (proj2
    (no_pages_empty_file Demo.map Demo.inherited Demo.customSerializers
       Demo.genericSerialize Demo.serializeNumber Demo.no_count JInfinity
       "cpu" "Next" eq_refl eq_refl)))).
Defined.


Lemma cpu_field_reserved (k : string) :
  k <> "core_count" -> k <> "graphics" -> k <> "mode" ->
  field_reserved Demo.map "cpu" k.
Proof.
  intros H1 H2 H3 field [section [label [kind [Hmap Hsec]]]].
  injection Hmap as <-. unfold Demo.cpu_section in Hsec.
  destruct (String.eqb label "Core Count"); [injection Hsec as <- _; congruence|].
  destruct (String.eqb label "Integrated Graphics");
    [injection Hsec as <- _; congruence|].
  destruct (String.eqb label "Mode"); [injection Hsec as <- _; congruence|].
  discriminate.
Defined.

Lemma record_name_witness :
  exists p productEl n,
    In productEl (rows Demo.two_pages "cpu" p)
    /\ nameText productEl = Ok n
    /\ obj_get "name"
         [("name", VStr "A1"); ("price", VNum (inject_Z 129));
          ("core_count", VNum (inject_Z 8))]
       = Some (VStr (replaceAll_newline n))
    /\ no_newline (replaceAll_newline n) = true.
Proof.
  exact (record_name_is_row_name_without_newline Demo.map Demo.inherited
           Demo.customSerializers Demo.genericSerialize Demo.serializeNumber
           Demo.two_pages JInfinity "cpu" _ _
           (cpu_field_reserved "name" ltac:(discriminate) ltac:(discriminate)
              ltac:(discriminate))
           (or_introl eq_refl) (or_introl eq_refl)).
Defined.


Lemma cell_calls_one_serializer_witness :
  In (CallGeneric "8" "number")
     (fst (serialize_spec Demo.map Demo.inherited Demo.customSerializers Demo.genericSerialize
             "cpu" (Demo.spec "Core Count" "8") empty_object))
  /\ "number" <> "custom".
Proof.
  split; [left; reflexivity|].
  exact (proj2 (cell_calls_one_serializer_at_most Demo.map Demo.inherited
                  Demo.customSerializers Demo.genericSerialize "cpu"
                  (Demo.spec "Core Count" "8") empty_object)
           "8" "number" (or_introl eq_refl)).
Defined.

Lemma inherited_label_drops_row_witness :
  Demo.cpu_section (trim "constructor") = None
  /\ inherited_member (trim "constructor") = true
  /\ kept Demo.map Demo.inherited Demo.customSerializers Demo.genericSerialize
       Demo.serializeNumber "cpu" Demo.a3 = [].
Proof.
  split; [reflexivity|]. split; [reflexivity|].
  exact (proj1 (proj2
    (inherited_label_drops_row Demo.map Demo.inherited Demo.customSerializers
       Demo.genericSerialize Demo.serializeNumber "cpu" Demo.cpu_section
       Demo.a3 [] (Demo.spec "constructor" "x") [Demo.spec "Core Count" "4"]
       "constructor" empty_object eq_refl eq_refl eq_refl eq_refl eq_refl))).
Defined.

Lemma row_dropped_without_section_witness :
  Demo.map "os" = None
  /\ inherited_member "os" = false
  /\ kept Demo.map Demo.inherited Demo.customSerializers Demo.genericSerialize
       Demo.serializeNumber "os" Demo.a1 = [].
Proof.
  split; [reflexivity|]. split; [reflexivity|].
  exact (proj1 (row_with_cells_dropped_without_section Demo.map Demo.inherited
                  Demo.customSerializers Demo.genericSerialize
                  Demo.serializeNumber "os" Demo.a1
                  (Demo.spec "Core Count" "8") [] eq_refl eq_refl eq_refl)).
Defined.

Lemma rows_kept_or_reported_witness :
  List.length (page_batch Demo.map Demo.inherited Demo.customSerializers Demo.genericSerialize
                 Demo.serializeNumber Demo.two_pages JInfinity "cpu" 1)
  + List.length
      (error_lines
         (fst (items_loop Demo.map Demo.inherited Demo.customSerializers Demo.genericSerialize
                 Demo.serializeNumber JInfinity "cpu"
                 (rows Demo.two_pages "cpu" 1) [])))
  = 3.
Proof.
  exact (proj2 (rows_kept_or_reported Demo.map Demo.inherited Demo.customSerializers
                  Demo.genericSerialize Demo.serializeNumber Demo.two_pages
                  JInfinity "cpu" 1) eq_refl).
Defined.

Lemma progress_bar_completes_witness :
  progress_totals (fst (Demo.task Demo.two_pages JInfinity "cpu")) = [JInt 2]
  /\ increments (fst (Demo.task Demo.two_pages JInfinity "cpu")) = 2.
Proof.
  exact (progress_bar_completes Demo.map Demo.inherited Demo.customSerializers
           Demo.genericSerialize Demo.serializeNumber Demo.two_pages "cpu" "2"
           2 eq_refl eq_refl two_pages_load).
Defined.

Lemma task_navigation_witness :
  exists later,
    gotos (fst (Demo.task Demo.two_pages JInfinity "cpu")) =
    "https://pcpartpicker.com/products/cpu"
    :: "https://pcpartpicker.com/products/cpu" :: later.
Proof.
  exact (proj2 (task_navigation Demo.map Demo.inherited Demo.customSerializers
                  Demo.genericSerialize Demo.serializeNumber Demo.two_pages
                  JInfinity "cpu") "2" eq_refl).
Defined.


Lemma limit_read_after_first_flag_witness :
  ~ In "-n" ["cpu"]
  /\ limit_of (["cpu"] ++ "-n" :: "12" :: ["memory"]) = ([], Ok (JInt 12)).
Proof.
  assert (Hnot : ~ In "-n" ["cpu"]) by (intros [H|[]]; discriminate).
  split; [exact Hnot|].
  exact (proj1 (proj2 (limit_read_after_first_flag ["cpu"] Hnot))
           "12" ["memory"] 12%Z eq_refl).
Defined.
